(** * The tab-completion engine of vorpal: [lib/autocomplete.js]

    A shallow embedding of the functions of [lib/autocomplete.js] and the
    properties of them that the specification states.

    Conventions of the embedding.
    - A JavaScript string is a [string]: a sequence of code units, here the
      code units below U+0100 ([ascii]).  [\s], [trim] and [toLowerCase] are
      the ECMAScript ones restricted to that range.
    - [strip] is the [strip-ansi] package, a dependency that is not part of
      the repository.  Every definition takes it as a parameter (the
      variable [strip] of section [Engine]); [strip_ansi] below is one
      instance, used where a closed example is evaluated.
    - [undefined] is [None] for a field that holds a string or an object and
      [VUndefined] for a value of any type ([jsval]).
    - The functions that call back ([exec], [getMatchData],
      [handleDataFormat]) live in the monad [M]: a state (the session's
      [_tabCtr], the [input] object shared by [exec] and its continuation,
      and the log of what reached the outside) with exceptions. *)

From Stdlib Require Import Sorted Permutation.
From Stdlib Require Import Bool Arith Lia List ZArith NArith Ascii String.
Import ListNotations.
Open Scope list_scope.
Open Scope string_scope.

(** ** Characters and strings *)

Definition code (c : ascii) : N := N_of_ascii c.

(** The class [\s] of a regular expression, which is also what [trim]
    removes: WhiteSpace and LineTerminator (TAB, LF, VT, FF, CR, SP, NBSP). *)
Definition is_space (c : ascii) : bool :=
  let n := code c in
  ((9 <=? n) && (n <=? 13) || (n =? 32) || (n =? 160))%N.

(** What [.] of a regular expression does not match: LF and CR. *)
Definition is_line_terminator (c : ascii) : bool :=
  let n := code c in
  ((n =? 10) || (n =? 13))%N.

(** [toLowerCase] on one code unit: A-Z, and the capital letters of
    Latin-1 (U+00C0-U+00DE but the multiplication sign U+00D7). *)
Definition lower_char (c : ascii) : ascii :=
  let n := code c in
  if ((65 <=? n) && (n <=? 90) || (192 <=? n) && (n <=? 214)
      || (216 <=? n) && (n <=? 222))%N
  then ascii_of_N (n + 32) else c.

Fixpoint toLowerCase (s : string) : string :=
  match s with
  | "" => ""
  | String c r => String (lower_char c) (toLowerCase r)
  end.

(** [s.slice(0, n)] and [s.substr(0, n)] for [0 <= n]. *)
Fixpoint slice_to (n : nat) (s : string) : string :=
  match n, s with
  | S n', String c r => String c (slice_to n' r)
  | _, _ => ""
  end.

(** [s.slice(n)], [s.slice(n, s.length)] and [s.substr(n)] for [0 <= n]. *)
Fixpoint slice_from (n : nat) (s : string) : string :=
  match n, s with
  | S n', String _ r => slice_from n' r
  | _, _ => s
  end.

(** [s.replace(/^\s+/g, '')]. *)
Fixpoint trim_start (s : string) : string :=
  match s with
  | "" => ""
  | String c r => if is_space c then trim_start r else s
  end.

Fixpoint trim_end (s : string) : string :=
  match s with
  | "" => ""
  | String c r =>
      match trim_end r with
      | "" => if is_space c then "" else String c ""
      | t => String c t
      end
  end.

(** [s.trim()]. *)
Definition trim (s : string) : string := trim_end (trim_start s).

(** [new Array(n + 1).join(' ')]: [n] spaces. *)
Fixpoint spaces (n : nat) : string :=
  match n with
  | O => ""
  | S k => String " " (spaces k)
  end.

(** A string in a condition: the empty string is falsy. *)
Definition truthy (s : string) : bool := negb (s =? "").

(** [s.split(sep)] for a separator of one character: never empty. *)
Fixpoint split (sep : ascii) (s : string) : list string :=
  match s with
  | "" => [""]
  | String c r =>
      if Ascii.eqb c sep then "" :: split sep r
      else match split sep r with
           | [] => [String c ""]
           | x :: xs => String c x :: xs
           end
  end.

(** [l.join(sep)]. *)
Fixpoint join (sep : string) (l : list string) : string :=
  match l with
  | [] => ""
  | x :: xs =>
      match xs with
      | [] => x
      | _ :: _ => x ++ sep ++ join sep xs
      end
  end.

(** [arr.sort()] on an array of strings: ascending in the order of the code
    units.  Equal strings are indistinguishable, so the result does not
    depend on the sorting algorithm. *)
Fixpoint insert (x : string) (l : list string) : list string :=
  match l with
  | [] => [x]
  | y :: r => if String.leb x y then x :: l else y :: insert x r
  end.

Fixpoint sort (l : list string) : list string :=
  match l with
  | [] => []
  | x :: r => insert x (sort r)
  end.

(** [a || b] where [a] is [undefined] or an object. *)
Definition or_else {A} (a b : option A) : option A :=
  match a with
  | Some x => Some x
  | None => b
  end.

(** ** [strip-ansi]

    The pattern that [strip-ansi] 3 removes (that of [ansi-regex] 2):
    an escape character U+001B or U+009B, then [[()#;?]* ], then optionally
    [[0-9]{1,4}] followed by any number of [;[0-9]{0,4}], then one character
    of [[0-9A-PRZcf-nqry=><]]; every occurrence is removed (flag g).
    Each function below matches the rest of the pattern at the head of its
    argument and returns what follows the match, trying the alternatives in
    the order in which a backtracking matcher does. *)
Module Ansi.

Definition is_escape (c : ascii) : bool :=
  let n := code c in ((n =? 27) || (n =? 155))%N.

Definition is_digit (c : ascii) : bool :=
  let n := code c in ((48 <=? n) && (n <=? 57))%N.

(** The class [[()#;?]. *)
Definition is_intro (c : ascii) : bool :=
  let n := code c in
  ((n =? 91) || (n =? 40) || (n =? 41) || (n =? 35) || (n =? 59) || (n =? 63))%N.

(** The class [0-9A-PRZcf-nqry=><]. *)
Definition is_final (c : ascii) : bool :=
  let n := code c in
  ((48 <=? n) && (n <=? 57) || (65 <=? n) && (n <=? 80) || (n =? 82)
   || (n =? 90) || (n =? 99) || (102 <=? n) && (n <=? 110) || (n =? 113)
   || (n =? 114) || (n =? 121) || (n =? 61) || (n =? 62) || (n =? 60))%N.

Definition final (s : string) : option string :=
  match s with
  | String c r => if is_final c then Some r else None
  | "" => None
  end.

(** [[0-9]{0,hi}] (greedy), then [k]. *)
Fixpoint digits (hi : nat) (k : string -> option string) (s : string)
  : option string :=
  match hi, s with
  | S hi', String c r =>
      if is_digit c then or_else (digits hi' k r) (k s) else k s
  | _, _ => k s
  end.

(** Any number of [;[0-9]{0,4}] (greedy), then the final character; at
    most [fuel] rounds, each of which consumes a semicolon. *)
Fixpoint params (fuel : nat) (s : string) : option string :=
  match fuel with
  | O => final s
  | S fuel' =>
      match s with
      | String c r =>
          if (code c =? 59)%N
          then or_else (digits 4 (params fuel') r) (final s)
          else final s
      | "" => final s
      end
  end.

(** The optional group, [[0-9]{1,4}] and its parameters, then the final
    character. *)
Definition body (s : string) : option string :=
  or_else
    match s with
    | String c r =>
        if is_digit c then digits 3 (params (String.length r)) r else None
    | "" => None
    end
    (final s).

(** [[()#;?]] any number of times (greedy), then the rest. *)
Fixpoint intro (s : string) : option string :=
  match s with
  | String c r => if is_intro c then or_else (intro r) (body s) else body s
  | "" => body s
  end.

Definition escape (s : string) : option string :=
  match s with
  | String c r => if is_escape c then intro r else None
  | "" => None
  end.

(** [s.replace(pattern, '')] with the flag [g]; [fuel] bounds the number of
    characters looked at. *)
Fixpoint strip_go (fuel : nat) (s : string) : string :=
  match fuel with
  | O => s
  | S fuel' =>
      match s with
      | "" => ""
      | String c r =>
          match escape s with
          | Some rest => strip_go fuel' rest
          | None => String c (strip_go fuel' r)
          end
      end
  end.


End Ansi.

Definition strip_ansi (s : string) : string :=
  Ansi.strip_go (String.length s) s.

(** ** The input object *)

(** [getSuffix]'s [suffix.replace(/.+?(?=\s)/, '')].  The match starts at
    the first character that [.] accepts and that has a [\s] character
    somewhere after it; being lazy it ends just before the first such
    character, and no line terminator can lie in between since line
    terminators are [\s].  [from_space r] is what is left of [r] then. *)
Fixpoint has_space (s : string) : bool :=
  match s with
  | "" => false
  | String c r => is_space c || has_space r
  end.

Fixpoint from_space (s : string) : string :=
  match s with
  | "" => ""
  | String c r => if is_space c then s else from_space r
  end.

Fixpoint drop_partial_word (s : string) : string :=
  match s with
  | "" => ""
  | String c r =>
      if negb (is_line_terminator c) && has_space r then from_space r
      else String c (drop_partial_word r)
  end.

Definition getSuffix (suffix : string) : string :=
  let suffix :=
    if slice_to 1 suffix =? " " then suffix else drop_partial_word suffix in
  slice_from 1 suffix.

(** [s || ''] for a string that may be [undefined]. *)
Definition or_empty (s : option string) : string :=
  match s with
  | Some x => x
  | None => ""
  end.

(** [String(s)] for a string that may be [undefined]. *)
Definition to_String (s : option string) : string :=
  match s with
  | Some x => x
  | None => "undefined"
  end.

(** [s === x] for a string [s] that may be [undefined]. *)
Definition is_string (s : option string) (x : string) : bool :=
  match s with
  | Some y => y =? x
  | None => false
  end.

Definition truthy_opt (s : option string) : bool :=
  match s with
  | Some x => truthy x
  | None => false
  end.

(** ** Values, data providers and the command registry *)

(** The values that reach the engine as candidate data or leave it as a
    result: [undefined], a string, an array of strings, and an [Error]
    object (truthy, and neither an array nor callable). *)
Inductive jsval : Type :=
| VUndefined
| VStr (s : string)
| VArr (l : list string)
| VError (message : string).

Definition TypeError : jsval := VError "TypeError".

(** What one call [config.call(self, str, cbk)] of a data provider does: it
    throws, or it passes the values [delivered] to [cbk], in this order and
    before it returns, and returns a value or a thenable.  A thenable is
    settled or stays pending for ever. *)
Inductive promise : Type :=
| Fulfilled (resp : jsval)
| Rejected (err : jsval)
| Pending.

Inductive returned : Type :=
| RetVal (res : jsval)
| RetThenable (p : promise).

Inductive behaviour : Type :=
| Raise (e : jsval)
| Return (delivered : list jsval) (res : returned).

(** A function: [arity] is its [length], the number of declared
    parameters. *)
Record jsfunction : Type := {
  arity : nat;
  call : option string -> behaviour
}.

(** An [autocomplete] configuration: absent, an array, a function, or an
    object, of which only the property [data] is read. *)
Inductive config : Type :=
| CUndefined
| CArray (l : list string)
| CFunction (f : jsfunction)
| CObject (data : config).

Record Opt : Type := {
  long : option string;
  short : option string;
  autocomplete : config
}.

Record Command : Type := {
  _name : string;
  _aliases : list string;
  _catch : bool;
  options : list Opt;
  _autocomplete : config
}.

(** The object [parseInput] builds and the later stages update. *)
Record Input : Type := {
  i_raw : string;
  i_prefix : string;
  i_suffix : string;
  i_context : option string;
  i_match : option Command;
  i_option : option string
}.

Definition parseInput (str : string) (idx : nat) : Input :=
  let raw := str in
  let sliced := slice_to idx raw in
  let sections := split "|" sliced in
  let prefix := join "|" (removelast sections ++ [""])%list in
  let suffix := getSuffix (slice_from idx raw) in
  let context := last sections "" in
  {| i_raw := raw; i_prefix := prefix; i_suffix := suffix;
     i_context := Some context; i_match := None; i_option := None |}.

Definition getCommandNames (cmds : list Command) : list string :=
  sort (map _name cmds ++ List.concat (map _aliases cmds))%list.

(** One round of [commands.forEach] in [getMatchObject], on the variables
    [match], [suffix] and [prefix]; [hit] is the condition of its [if]. *)
Definition hit (trimmed cmd : string) : bool :=
  (slice_to (length cmd) trimmed =? cmd) && negb (trim cmd =? "").

Definition scan (trimmed : string)
  (st : option string * option string * string) (cmd : string)
  : option string * option string * string :=
  let '(m, suffix, prefix) := st in
  if hit trimmed cmd
  then (Some cmd, Some (slice_from (length cmd) trimmed),
        prefix ++ slice_to (length cmd) trimmed)
  else st.

(** [this.parent.commands.forEach] of [getMatchObject]: the last command
    that has [String(match).trim()] among its aliases. *)
Definition by_alias (cmds : list Command) (m : option string)
  : option Command :=
  fold_left
    (fun found cmd =>
       if existsb (String.eqb (trim (to_String m))) (_aliases cmd)
       then Some cmd else found)
    cmds None.

(** [None] is the [TypeError] of [input.context.length] on [undefined]. *)
Definition getMatchObject (cmds : list Command) (input : Input)
  (commands : list string) : option Input :=
  match i_context input with
  | None => None
  | Some context =>
      let len := length context in
      let trimmed := trim_start context in
      let prefix := spaces (len - length trimmed) in
      let '(m, suffix, prefix) :=
        fold_left (scan trimmed) commands (None, None, prefix) in
      let matchObject :=
        if truthy_opt m
        then find (fun c => _name c =? trim (to_String m)) cmds
        else None in
      let matchObject :=
        match matchObject with
        | Some o => Some o
        | None => by_alias cmds m
        end in
      let '(matchObject, suffix) :=
        match matchObject with
        | Some o => (Some o, suffix)
        | None =>
            match find _catch cmds with
            | Some o => (Some o, Some context)
            | None => (None, suffix)
            end
        end in
      match matchObject with
      | Some o =>
          Some {| i_raw := i_raw input;
                  i_prefix := i_prefix input ++ prefix;
                  i_suffix := i_suffix input;
                  i_context := suffix;
                  i_match := Some o;
                  i_option := i_option input |}
      | None => Some input
      end
  end.

(** The [for] loop of [getMatchData] over [cmd.options]. *)
Fixpoint flags (opts : list Opt) : list string :=
  match opts with
  | [] => []
  | o :: r =>
      if negb (truthy_opt (long o)) && truthy_opt (short o)
      then or_empty (short o) :: flags r
      else if truthy_opt (long o) then or_empty (long o) :: flags r
      else flags r
  end.

(** [conf = (conf && conf.data) ? conf.data : conf]. *)
Definition data_of (conf : config) : config :=
  match conf with
  | CObject CUndefined => conf
  | CObject data => data
  | _ => conf
  end.

(** ** The session: state, exceptions and what reaches the outside *)

(** A call [cb(err, res)] of the completion callback, or a rejection that
    no handler of a promise chain took. *)
Inductive event : Type :=
| Callback (err res : jsval)
| UnhandledRejection (reason : jsval).

(** [_tabCtr] is the session's counter; [input] is the variable [input] of
    the running [exec], which its continuation reads and updates (one
    request at a time); [log] lists the events so far, oldest first. *)
Record world : Type := {
  _tabCtr : Z;
  input : Input;
  log : list event
}.

Inductive outcome (A : Type) : Type :=
| Ok (a : A) (w : world)
| Throw (e : jsval) (w : world).
Arguments Ok {A} a w.
Arguments Throw {A} e w.

Definition M (A : Type) : Type := world -> outcome A.

Definition ret {A} (a : A) : M A := fun w => Ok a w.

Definition throw {A} (e : jsval) : M A := fun w => Throw e w.

Definition bind {A B} (m : M A) (k : A -> M B) : M B :=
  fun w =>
    match m w with
    | Ok a w' => k a w'
    | Throw e w' => Throw e w'
    end.

Notation "x <- m ;; k" := (bind m (fun x => k))
  (at level 61, m at next level, right associativity).
Notation "m ;; k" := (bind m (fun _ => k))
  (at level 61, right associativity).

Definition emit (ev : event) : M unit :=
  fun w =>
    Ok tt {| _tabCtr := _tabCtr w; input := input w;
             log := (log w ++ [ev])%list |}.

Definition set_input (i : Input) : M unit :=
  fun w => Ok tt {| _tabCtr := _tabCtr w; input := i; log := log w |}.

Definition get_input : M Input := fun w => Ok (input w) w.

Fixpoint each {A} (f : A -> M unit) (l : list A) : M unit :=
  match l with
  | [] => ret tt
  | x :: r => f x ;; each f r
  end.

(** [handleTabCounts] on the counter: the result and the new counter. *)
Definition handleTabCounts (str : jsval) (tabCtr : Z) : jsval * Z :=
  match str with
  | VArr l =>
      let tabCtr := (tabCtr + 1)%Z in
      (if (1 <? tabCtr)%Z
       then (if (List.length l =? 0)%nat then VUndefined else str)
       else VUndefined,
       tabCtr)
  | _ => (str, 0%Z)
  end.

(** [end] of [exec]: [handleTabCounts.call(self, str)], then
    [cb(undefined, res)]. *)
Definition end_ (str : jsval) : M unit :=
  fun w =>
    let (res, ctr) := handleTabCounts str (_tabCtr w) in
    emit (Callback VUndefined res)
      {| _tabCtr := ctr; input := input w; log := log w |}.

(** [res.then(function (resp) { callback(resp) }).catch(function (err) {
    callback(err) })]: the handlers run once the promise is settled, after
    [exec] has returned.  What [callback] throws in the first handler
    rejects the derived promise and so reaches the second one; what it
    throws there is a rejection that nothing handles. *)
Definition then_catch (p : promise) (callback : jsval -> M unit) : M unit :=
  let catch (err : jsval) : M unit :=
    fun w =>
      match callback err w with
      | Ok _ w' => Ok tt w'
      | Throw e w' => emit (UnhandledRejection e) w'
      end in
  match p with
  | Pending => ret tt
  | Rejected err => catch err
  | Fulfilled resp =>
      fun w =>
        match callback resp w with
        | Ok _ w' => Ok tt w'
        | Throw e w' => catch e w'
        end
  end.

(** [res || []]. *)
Definition or_empty_array (res : jsval) : jsval :=
  match res with
  | VUndefined => VArr []
  | VStr s => if truthy s then res else VArr []
  | _ => res
  end.

Definition handleDataFormat (str : option string) (conf : config)
  (callback : jsval -> M unit) : M unit :=
  match conf with
  | CArray l => callback (VArr l)
  | CFunction config =>
      let cbk : jsval -> M unit :=
        if (arity config <? 2)%nat then (fun _ => ret tt)
        else (fun res => callback (or_empty_array res)) in
      match call config str with
      | Raise e => throw e
      | Return delivered res =>
          each cbk delivered ;;
          match res with
          | RetThenable p => then_catch p callback
          | RetVal res =>
              if (arity config <? 2)%nat then callback res else ret tt
          end
      end
  | _ => callback (VArr [])
  end.

(** [arr = arr || []; arr.sort()] of [autocomplete.match] on a value:
    [None] when the value has no method [sort].  The array is sorted in
    place, so this is also what the caller's [data] holds afterwards. *)
Definition sorted (data : jsval) : option (list string) :=
  match data with
  | VUndefined => Some []
  | VStr s => if truthy s then None else Some []
  | VArr l => Some (sort l)
  | VError _ => None
  end.

(** [r] is a prefix of [s]: [s.slice(0, r.length) === r]. *)
Definition prefix_of (r s : string) : Prop := slice_to (length r) s = r.

Section Engine.

(** The function of [strip-ansi]. *)
Variable strip : string -> string.

Definition assembleInput (input : Input) : string :=
  let result :=
    i_prefix input ++ or_empty (i_context input) ++ i_suffix input in
  strip result.

Definition filterData (str : option string) (data : list string)
  : list string :=
  let ctx := trim (or_empty str) in
  filter (fun item => slice_to (length ctx) (strip item) =? ctx) data.

(** The first loop of [go] in [autocomplete.match]. *)
Definition matching (strX : string) (a : string) : bool :=
  toLowerCase (slice_to (length strX) (strip a)) =? toLowerCase strX.

(** The loop [for (k = strX.length; k <= matches[0].length; ++k)] from [k]
    on, with [fuel] rounds left; [first] is [matches[0]]. *)
Fixpoint extend (matches : list string) (first : string) (k fuel : nat)
  (furthest : string) : string :=
  match fuel with
  | O => furthest
  | S fuel' =>
      let curr := toLowerCase (slice_to k (strip first)) in
      let same :=
        List.length
          (filter
             (fun m => toLowerCase (slice_to (length curr) (strip m)) =? curr)
             matches) in
      if (same =? List.length matches)%nat
      then extend matches first (S k) fuel' curr
      else furthest
  end.

(** The candidates agree with [first] on [k] characters, case and
    formatting apart: the condition [same === matches.length] of round
    [k]. *)
Definition agree (matches : list string) (first : string) (k : nat) : Prop :=
  forall m, In m matches ->
    prefix_of (slice_to k (toLowerCase (strip first)))
      (toLowerCase (strip m)).

(** [autocomplete.match] on an array of strings. *)
Definition match_ (str : string) (arr : list string) : option string :=
  let arrX := sort arr in
  let strX := str in
  let matches := filter (matching strX) arrX in
  match matches with
  | [] => None
  | [m] => Some (m ++ " ")
  | first :: _ =>
      let furthest :=
        extend matches first (length strX)
          (S (length first) - length strX) strX in
      if furthest =? strX then None else Some furthest
  end.

Definition getMatch (ctx : string) (data : list string) : option string :=
  let len := length ctx in
  let trimmed := trim_start ctx in
  let m := match_ trimmed data in
  let prefix := spaces (len - length trimmed) in
  match m with
  | Some m => if truthy m then Some (prefix ++ m) else None
  | None => None
  end.

Definition parseMatchSection (input : Input) : Input :=
  let parts := split " " (or_empty (i_context input)) in
  let last_ := last parts "" in
  let parts := removelast parts in
  let beforeLast := trim (strip (last parts "")) in
  {| i_raw := i_raw input;
     i_prefix := i_prefix input ++ join " " parts ++ " ";
     i_suffix := i_suffix input;
     i_context := Some last_;
     i_match := i_match input;
     i_option :=
       if slice_to 1 beforeLast =? "-" then Some beforeLast
       else i_option input |}.

(** [None] for [cmd] stands for the [TypeError] of reading a property of
    [undefined]. *)
Definition getMatchData (input : Input) (cb : jsval -> M unit) : M unit :=
  let string_ := i_context input in
  match i_match input with
  | None => throw TypeError
  | Some cmd =>
      let midOption := slice_to 1 (trim (to_String string_)) =? "-" in
      if midOption then cb (VArr (flags (options cmd)))
      else
        let by_command :=
          handleDataFormat string_ (data_of (_autocomplete cmd)) cb in
        match i_option input with
        | None => by_command
        | Some option =>
            let opt := trim (strip option) in
            let shortMatch :=
              find (fun o => is_string (short o) opt) (options cmd) in
            let longMatch :=
              find (fun o => is_string (long o) opt) (options cmd) in
            match or_else longMatch shortMatch with
            | Some m => handleDataFormat string_ (autocomplete m) cb
            | None => by_command
            end
        end
  end.

(** The continuation that [exec] passes to [getMatchData].  [data] is the
    array after [autocomplete.match] has sorted it. *)
Definition on_data (data : jsval) : M unit :=
  input <- get_input ;;
  match i_context input, sorted data with
  | Some context, Some data =>
      match getMatch context data with
      | Some dataMatch =>
          let input :=
            {| i_raw := i_raw input; i_prefix := i_prefix input;
               i_suffix := i_suffix input; i_context := Some dataMatch;
               i_match := i_match input; i_option := i_option input |} in
          set_input input ;;
          end_ (VStr (assembleInput input))
      | None => end_ (VArr (filterData (Some context) data))
      end
  | _, _ => throw TypeError
  end.

(** [exec]: [cmds] is [this.parent.commands] and [cursor] is
    [this.parent.ui._activePrompt.screen.rl.cursor]. *)
Definition exec (cmds : list Command) (cursor : nat) (str : string)
  : M unit :=
  let input := parseInput str cursor in
  let commands := getCommandNames cmds in
  match i_context input with
  | None => throw TypeError
  | Some context =>
  match getMatch context commands with
  | Some vorpalMatch =>
      let input :=
        {| i_raw := i_raw input; i_prefix := i_prefix input;
           i_suffix := i_suffix input; i_context := Some vorpalMatch;
           i_match := i_match input; i_option := i_option input |} in
      set_input input ;;
      end_ (VStr (assembleInput input))
  | None =>
      match getMatchObject cmds input commands with
      | None => throw TypeError
      | Some input =>
          match i_match input with
          | Some _ =>
              let input := parseMatchSection input in
              set_input input ;;
              getMatchData input on_data
          | None =>
              set_input input ;;
              end_ (VArr (filterData (i_context input) commands))
          end
      end
  end
  end.


(** ** What the specification calls an option's flag *)

(** A form of an option is present when it is a string that is not empty. *)
Definition has_flag (o : Opt) : bool :=
  truthy_opt (long o) || truthy_opt (short o).

(** The long form when present, otherwise the short form. *)
Definition preferred (o : Opt) : string :=
  if truthy_opt (long o) then or_empty (long o) else or_empty (short o).

(** ** Sample registries and inputs *)

Definition command (name : string) (aliases : list string)
  (conf : config) : Command :=
  {| _name := name; _aliases := aliases; _catch := false; options := [];
     _autocomplete := conf |}.

(** [vorpal.catch('[words...]')]: the catch-all command has no name. *)
Definition catch_all : Command :=
  {| _name := ""; _aliases := []; _catch := true; options := [];
     _autocomplete := CUndefined |}.

Definition force : Opt :=
  {| long := Some "--force"; short := Some "-f"; autocomplete := CUndefined |}.

Definition typed (context : string) (m : option Command) : Input :=
  {| i_raw := context; i_prefix := ""; i_suffix := "";
     i_context := Some context; i_match := m; i_option := None |}.

Definition idle : world :=
  {| _tabCtr := 0; input := typed "" None; log := [] |}.

(** ** Observations on a run *)

Definition world_of {A} (o : outcome A) : world :=
  match o with
  | Ok _ w => w
  | Throw _ w => w
  end.


(** A result of the public interface: [undefined], a string or a list. *)
Definition is_result (v : jsval) : bool :=
  match v with
  | VError _ => false
  | _ => true
  end.

(** Candidate data that [autocomplete.match] accepts: an array of strings
    or a falsy value. *)
Definition is_candidates (v : jsval) : bool :=
  match sorted v with
  | Some _ => true
  | None => false
  end.

(** What a call of a provider delivers when it delivers exactly once: the
    value it returns or its promise is settled with when it declares no
    delivery callback; otherwise the one value it passes to the delivery
    callback, or the one its promise is settled with. *)
Definition single_delivery (f : jsfunction) (str : option string)
  : option jsval :=
  match call f str with
  | Raise _ => None
  | Return delivered res =>
      if (arity f <? 2)%nat then
        match res with
        | RetVal v => Some v
        | RetThenable (Fulfilled v) => Some v
        | RetThenable (Rejected v) => Some v
        | RetThenable Pending => None
        end
      else
        match delivered, res with
        | [d], RetVal _ => Some (or_empty_array d)
        | [], RetThenable (Fulfilled v) => Some v
        | [], RetThenable (Rejected v) => Some v
        | _, _ => None
        end
  end.

(** A configuration whose provider, if it is a function, delivers exactly
    one value on every context, and that value is candidate data. *)
Definition delivers_candidates (conf : config) : Prop :=
  match conf with
  | CFunction f =>
      forall str, exists v,
        single_delivery f str = Some v /\ is_candidates v = true
  | _ => True
  end.

Definition well_behaved (cmds : list Command) : Prop :=
  forall c, In c cmds ->
    delivers_candidates (data_of (_autocomplete c))
    /\ (forall o, In o (options c) -> delivers_candidates (autocomplete o)).


(** A computation that fails in no way and calls the completion callback
    exactly once, with a result and no error, while an [exec] whose
    [input.context] is a string is running. *)
Definition calls_back_once (m : M unit) : Prop :=
  forall w, i_context (input w) <> None ->
    exists res w',
      m w = Ok tt w'
      /\ log w' = (log w ++ [Callback VUndefined res])%list
      /\ is_result res = true.

(** A continuation that hands what it receives to the completion
    callback. *)
Definition deliver (v : jsval) : M unit := emit (Callback VUndefined v).

(** Providers: one that returns a promise it rejects, one that declares a
    delivery callback and never calls it, and one that calls it and returns
    a promise as well. *)
Definition rejecting (e : jsval) : jsfunction :=
  {| arity := 1; call := fun _ => Return [] (RetThenable (Rejected e)) |}.

Definition silent : jsfunction :=
  {| arity := 2; call := fun _ => Return [] (RetVal VUndefined) |}.

Definition twice : jsfunction :=
  {| arity := 2;
     call := fun _ =>
               Return [VArr ["a"]] (RetThenable (Fulfilled (VArr ["b"]))) |}.

Definition returning (v : jsval) : jsfunction :=
  {| arity := 1; call := fun _ => Return [] (RetVal v) |}.

(** ** Further notions *)

(** [s] does not contain the character [c]. *)
Fixpoint no_char (c : ascii) (s : string) : bool :=
  match s with
  | "" => true
  | String x r => negb (Ascii.eqb x c) && no_char c r
  end.

(** In the order [arr.sort()] sorts into. *)
Definition ascending (l : list string) : Prop :=
  StronglySorted (fun a b => String.leb a b = true) l.

(** * Properties *)

(** ** Strings *)

Lemma append_nil_r (s : string) : s ++ "" = s.
Proof. induction s as [|c s IH]; simpl; [reflexivity | now rewrite IH]. Qed.

Lemma append_assoc (a b c : string) : (a ++ b) ++ c = a ++ b ++ c.
Proof. induction a as [|x a IH]; simpl; [reflexivity | now rewrite IH]. Qed.

Lemma slice_to_from (n : nat) (s : string) :
  slice_to n s ++ slice_from n s = s.
Proof.
  revert s; induction n as [|n IH]; intros [|c s]; simpl; try reflexivity.
  now rewrite IH.
Qed.

Lemma slice_to_all (n : nat) (s : string) :
  length s <= n -> slice_to n s = s.
Proof.
  revert s; induction n as [|n IH]; intros [|c s]; simpl; intros H;
    try reflexivity; try lia.
  rewrite IH by lia. reflexivity.
Qed.

Lemma slice_from_all (n : nat) (s : string) :
  length s <= n -> slice_from n s = "".
Proof.
  revert s; induction n as [|n IH]; intros [|c s]; simpl; intros H;
    try reflexivity; try lia.
  apply IH. lia.
Qed.

Lemma split_not_nil (sep : ascii) (s : string) : split sep s <> [].
Proof.
  induction s as [|c s IH]; simpl; [discriminate|].
  destruct (Ascii.eqb c sep); [discriminate|].
  destruct (split sep s); discriminate.
Qed.

(** Joining what [split] gives restores the string. *)
Lemma join_split (sep : ascii) (s : string) :
  join (String sep "") (split sep s) = s.
Proof.
  induction s as [|c s IH]; simpl; [reflexivity|].
  destruct (Ascii.eqb_spec c sep) as [->|Hne].
  - pose proof (split_not_nil sep s) as Hnil.
    destruct (split sep s) as [|x xs]; [contradiction|].
    simpl in IH |- *. now rewrite IH.
  - pose proof (split_not_nil sep s) as Hnil.
    destruct (split sep s) as [|x xs]; [contradiction|].
    destruct xs as [|y ys]; simpl in IH |- *; now rewrite <- IH.
Qed.

(** [parseInput]'s [prefix] and [context] are the two parts of the joined
    sections: all but the last with an empty one pushed, and the last. *)
Lemma join_removelast_last (sep : string) (l : list string) :
  l <> [] ->
  join sep (removelast l ++ [""])%list ++ last l "" = join sep l.
Proof.
  induction l as [|x l IH]; intros Hl; [contradiction|].
  destruct l as [|y l]; [reflexivity|].
  assert (Hyl : y :: l <> []) by discriminate.
  specialize (IH Hyl).
  change (removelast (x :: y :: l)) with (x :: removelast (y :: l)).
  change (last (x :: y :: l) "") with (last (y :: l) "").
  change (join sep (x :: y :: l)) with (x ++ sep ++ join sep (y :: l)).
  rewrite <- IH.
  destruct (removelast (y :: l) ++ [""])%list as [|z zs] eqn:E.
  - destruct (removelast (y :: l)); discriminate.
  - change (join sep ((x :: removelast (y :: l)) ++ [""])%list)
      with (join sep (x :: (removelast (y :: l) ++ [""]))%list).
    rewrite E.
    change (join sep (x :: z :: zs)) with (x ++ sep ++ join sep (z :: zs)).
    now rewrite !append_assoc.
Qed.

(** What [parseInput] cuts a line into: the prefix and the context are the
    text before the cursor. *)
Lemma parseInput_before_cursor (str : string) (idx : nat) :
  i_prefix (parseInput str idx) ++ or_empty (i_context (parseInput str idx))
  = slice_to idx str.
Proof.
  unfold parseInput; simpl.
  rewrite join_removelast_last by apply split_not_nil.
  apply join_split.
Qed.

(** C1, as the code has it: assembling what [parseInput] gives, the
    context untouched, is the stripped text before the cursor followed by
    what [getSuffix] keeps of the text after it; it is the stripped line
    when the cursor stands at the end of the line. *)
Theorem assembleInput_parseInput :
  (forall (R : string) (i : nat),
      assembleInput (parseInput R i)
      = strip (slice_to i R ++ getSuffix (slice_from i R)))
  /\ (forall R : string,
         assembleInput (parseInput R (length R)) = strip R).
Proof.
  assert (G : forall R i,
             assembleInput (parseInput R i)
             = strip (slice_to i R ++ getSuffix (slice_from i R))).
  { intros R i. unfold assembleInput.
    rewrite <- append_assoc, parseInput_before_cursor. reflexivity. }
  split; [exact G|].
  intros R. rewrite G, slice_from_all, slice_to_all by lia.
  unfold getSuffix; simpl. now rewrite append_nil_r.
Qed.

(** ** [getSuffix] *)

Lemma drop_partial_word_no_space (s : string) :
  has_space s = false -> drop_partial_word s = s.
Proof.
  induction s as [|c s IH]; simpl; intros H; [reflexivity|].
  apply orb_false_elim in H as [_ Hs].
  rewrite Hs, andb_false_r, IH by assumption. reflexivity.
Qed.

(** C10: of a remainder without any whitespace character [getSuffix]
    returns all but the first character; the pattern matches nothing and
    one character is sliced off all the same. *)
Theorem getSuffix_no_space (s : string) :
  has_space s = false -> getSuffix s = slice_from 1 s.
Proof.
  intros H. unfold getSuffix.
  rewrite drop_partial_word_no_space by assumption.
  destruct (slice_to 1 s =? " "); reflexivity.
Qed.

(** ** [handleTabCounts] *)


(** ** [autocomplete.match] *)

Lemma length_toLowerCase (s : string) : length (toLowerCase s) = length s.
Proof. induction s as [|c s IH]; simpl; [reflexivity | now rewrite IH]. Qed.

Lemma toLowerCase_slice_to (k : nat) (s : string) :
  toLowerCase (slice_to k s) = slice_to k (toLowerCase s).
Proof.
  revert s; induction k as [|k IH]; intros [|c s]; simpl; try reflexivity.
  now rewrite IH.
Qed.


Lemma slice_to_slice_to (j k : nat) (s : string) :
  j <= k -> slice_to j (slice_to k s) = slice_to j s.
Proof.
  revert k s; induction j as [|j IH]; intros [|k] [|c s] H; simpl;
    try reflexivity; try lia.
  rewrite IH by lia. reflexivity.
Qed.



(** The first characters of a string are those of any of its prefixes that
    is long enough. *)
Lemma prefix_of_agree (c s : string) (k : nat) :
  prefix_of c s -> k <= length c -> slice_to k s = slice_to k c.
Proof.
  unfold prefix_of; intros H Hk.
  rewrite <- H. now rewrite slice_to_slice_to.
Qed.


Lemma filter_length_all {A} (f : A -> bool) (l : list A) :
  List.length (filter f l) = List.length l <->
  (forall x, In x l -> f x = true).
Proof.
  induction l as [|a l IH]; simpl.
  - split; [intros _ x [] | reflexivity].
  - pose proof (filter_length_le f l) as Hle.
    destruct (f a) eqn:E; simpl; split.
    + intros H x [<-|Hx]; [assumption|]. apply IH; [lia | assumption].
    + intros H. f_equal. apply IH. intros x Hx. apply H. now right.
    + intros H. lia.
    + intros H. specialize (H a (or_introl eq_refl)). congruence.
Qed.

Lemma In_insert (x y : string) (l : list string) :
  In y (insert x l) <-> y = x \/ In y l.
Proof.
  induction l as [|a l IH]; simpl.
  - intuition congruence.
  - destruct (String.leb x a); simpl; rewrite ?IH; intuition congruence.
Qed.

Lemma In_sort (y : string) (l : list string) : In y (sort l) <-> In y l.
Proof.
  induction l as [|a l IH]; simpl; [reflexivity|].
  rewrite In_insert, IH. intuition congruence.
Qed.

Lemma filter_insert_length (f : string -> bool) (x : string)
  (l : list string) :
  List.length (filter f (insert x l)) = List.length (filter f (x :: l)).
Proof.
  induction l as [|a l IH]; [reflexivity|].
  simpl in *. destruct (String.leb x a); simpl; [reflexivity|].
  destruct (f a), (f x); simpl in *; lia.
Qed.

Lemma filter_sort_length (f : string -> bool) (l : list string) :
  List.length (filter f (sort l)) = List.length (filter f l).
Proof.
  induction l as [|a l IH]; [reflexivity|].
  simpl sort. rewrite filter_insert_length. simpl.
  destruct (f a); simpl; now rewrite IH.
Qed.

Lemma same_agree (matches : list string) (first : string) (k : nat) :
  let curr := toLowerCase (slice_to k (strip first)) in
  (List.length
     (filter
        (fun m => (toLowerCase (slice_to (length curr) (strip m)) =? curr)%string)
        matches) =? List.length matches)%nat = true
  <-> agree matches first k.
Proof.
  intros curr. rewrite Nat.eqb_eq, filter_length_all. unfold agree, prefix_of.
  subst curr. rewrite toLowerCase_slice_to.
  split; intros H m Hm; specialize (H m Hm).
  - apply String.eqb_eq in H. now rewrite toLowerCase_slice_to in H.
  - apply String.eqb_eq. now rewrite toLowerCase_slice_to.
Qed.

(** The loop returns [furthest] unchanged when the first round fails, and
    otherwise the prefix of the last round [k'] that succeeded: either the
    next round failed or there was none. *)
Lemma extend_spec (matches : list string) (first : string) :
  forall (fuel k : nat) (furthest : string),
    (extend matches first k fuel furthest = furthest
     /\ (fuel = 0 \/ ~ agree matches first k))
    \/ (exists k', k <= k' < k + fuel
          /\ extend matches first k fuel furthest
             = slice_to k' (toLowerCase (strip first))
          /\ (forall j, k <= j <= k' -> agree matches first j)
          /\ (S k' = k + fuel \/ ~ agree matches first (S k'))).
Proof.
  induction fuel as [|fuel IH]; intros k furthest.
  - left. split; [reflexivity | now left].
  - cbn [extend]. cbv zeta.
    destruct (Nat.eqb _ _) eqn:E.
    + apply same_agree in E. right.
      destruct (IH (S k) (toLowerCase (slice_to k (strip first))))
        as [[Hr Hstop] | (k' & Hk' & Hr & Hall & Hstop)].
      * exists k. rewrite Hr, toLowerCase_slice_to.
        repeat split; try lia.
        -- intros j Hj. replace j with k by lia. exact E.
        -- destruct Hstop as [-> | Hn]; [left; lia | now right].
      * exists k'. repeat split; try lia; try assumption.
        -- intros j Hj. destruct (Nat.eq_dec j k) as [->|Hne];
             [exact E | apply Hall; lia].
        -- destruct Hstop as [Hs | Hn]; [left; lia | now right].
    + left. split; [reflexivity|]. right. intros Ha.
      apply same_agree in Ha. cbv zeta in Ha. congruence.
Qed.



(** ** [getMatchObject] *)

(** The scan appends to [prefix] every name that is a prefix of the
    context, not only the one it keeps as [match]. *)
Lemma scan_appends_every_hit (trimmed : string) (commands : list string) :
  forall (m suffix : option string) (prefix : string),
    snd (fold_left (scan trimmed) commands (m, suffix, prefix))
    = prefix ++ join "" (filter (hit trimmed) commands).
Proof.
  induction commands as [|cmd commands IH]; intros m suffix prefix.
  - simpl. now rewrite append_nil_r.
  - cbn [fold_left filter]. unfold scan at 2.
    destruct (hit trimmed cmd) eqn:E.
    + rewrite IH, append_assoc. f_equal.
      unfold hit in E. apply andb_prop in E as [E _].
      apply String.eqb_eq in E. rewrite E.
      destruct (filter (hit trimmed) commands); simpl;
        [now rewrite append_nil_r | reflexivity].
    + apply IH.
Qed.

Lemma scan_no_hit (trimmed : string) (commands : list string)
  (st : option string * option string * string) :
  (forall cmd, In cmd commands -> hit trimmed cmd = false) ->
  fold_left (scan trimmed) commands st = st.
Proof.
  revert st; induction commands as [|cmd commands IH]; intros st H;
    [reflexivity|].
  cbn [fold_left]. rewrite IH by (intros c Hc; apply H; now right).
  destruct st as [[m suffix] prefix]. unfold scan.
  now rewrite (H cmd (or_introl eq_refl)).
Qed.

Lemma by_alias_none (cmds : list Command) (m : option string) :
  (forall c, In c cmds -> ~ In (trim (to_String m)) (_aliases c)) ->
  by_alias cmds m = None.
Proof.
  unfold by_alias. intros H.
  assert (G : forall found,
             fold_left
               (fun found cmd =>
                  if existsb (String.eqb (trim (to_String m))) (_aliases cmd)
                  then Some cmd else found) cmds found = found).
  { induction cmds as [|c cmds IH]; intros found; [reflexivity|].
    cbn [fold_left].
    rewrite IH by (intros c' Hc'; apply H; now right).
    destruct (existsb _ (_aliases c)) eqn:E; [|reflexivity].
    apply existsb_exists in E as (a & Ha & Heq).
    apply String.eqb_eq in Heq. subst a.
    exfalso. exact (H c (or_introl eq_refl) Ha). }
  apply G.
Qed.

(** The catch-all takes a context that no registered name is a prefix of
    and passes it on unchanged, in a registry where no command has the
    alias [undefined]. *)
Lemma getMatchObject_catch_all (cmds : list Command) (input : Input)
  (commands : list string) (context : string) (c : Command) :
  i_context input = Some context ->
  (forall cmd, In cmd commands -> hit (trim_start context) cmd = false) ->
  (forall c', In c' cmds -> ~ In "undefined" (_aliases c')) ->
  find _catch cmds = Some c ->
  getMatchObject cmds input commands
  = Some {| i_raw := i_raw input;
            i_prefix :=
              i_prefix input
              ++ spaces (length context - length (trim_start context));
            i_suffix := i_suffix input;
            i_context := Some context;
            i_match := Some c;
            i_option := i_option input |}.
Proof.
  intros Hctx Hhit Halias Hcatch. unfold getMatchObject.
  rewrite Hctx, scan_no_hit by assumption.
  cbn [truthy_opt]. rewrite by_alias_none by exact Halias.
  now rewrite Hcatch.
Qed.

(** ** [getMatchData] *)

Lemma flags_preferred (opts : list Opt) :
  forallb has_flag opts = true -> flags opts = map preferred opts.
Proof.
  induction opts as [|o opts IH]; simpl; intros H; [reflexivity|].
  apply andb_prop in H as [Ho H]. rewrite (IH H).
  unfold has_flag in Ho. unfold preferred.
  destruct (truthy_opt (long o)); simpl in *; [reflexivity|].
  now rewrite Ho.
Qed.

(** C8: on a context whose trimmed text begins with a dash [getMatchData]
    calls no data provider; it passes on one candidate per option, the
    long form when present and otherwise the short form. *)
Theorem getMatchData_option_flags (input : Input) (cmd : Command)
  (cb : jsval -> M unit) (w : world) :
  i_match input = Some cmd ->
  slice_to 1 (trim (to_String (i_context input))) = "-" ->
  forallb has_flag (options cmd) = true ->
  getMatchData input cb w = cb (VArr (map preferred (options cmd))) w
  /\ List.length (map preferred (options cmd)) = List.length (options cmd).
Proof.
  intros Hm Hdash Hflags. split; [|apply length_map].
  unfold getMatchData.
  rewrite Hm, Hdash, flags_preferred by assumption. reflexivity.
Qed.

(** ** [handleDataFormat] *)

Lemma bind_unit (m : M unit) (w : world) : (m ;; ret tt) w = m w.
Proof. unfold bind, ret. destruct (m w) as [[] w'|e w']; reflexivity. Qed.

(** Without a declared delivery callback, [cbk] does nothing. *)
Lemma each_nothing (l : list jsval) (w : world) :
  each (fun _ : jsval => ret tt) l w = Ok tt w.
Proof.
  induction l as [|x l IH]; [reflexivity|].
  cbn [each]. unfold bind at 1. unfold ret at 1. exact IH.
Qed.

(** C7, as the code has it: of a function that returns no thenable, the
    return value goes to the continuation, once, when fewer than two
    parameters are declared; otherwise the return value is ignored and the
    continuation receives each value passed to the delivery callback, an
    empty list in place of a falsy one. *)
Theorem handleDataFormat_function (str : option string) (f : jsfunction)
  (delivered : list jsval) (res : jsval) (callback : jsval -> M unit)
  (w : world) :
  call f str = Return delivered (RetVal res) ->
  handleDataFormat str (CFunction f) callback w
  = if (arity f <? 2)%nat then callback res w
    else each (fun d => callback (or_empty_array d)) delivered w.
Proof.
  intros Hcall. unfold handleDataFormat. rewrite Hcall.
  destruct (arity f <? 2)%nat.
  - unfold bind at 1. now rewrite each_nothing.
  - apply bind_unit.
Qed.


(** ** The error slot *)











(** ** One call of the completion callback *)

Lemma handleTabCounts_result (v : jsval) (ctr : Z) :
  is_result v = true -> is_result (fst (handleTabCounts v ctr)) = true.
Proof.
  destruct v as [|s|l|msg]; simpl; intros H; try assumption.
  destruct (1 <? ctr + 1)%Z; [|reflexivity].
  destruct (List.length l =? 0)%nat; reflexivity.
Qed.

Lemma end_once (v : jsval) (w : world) :
  is_result v = true ->
  exists res w',
    end_ v w = Ok tt w'
    /\ log w' = (log w ++ [Callback VUndefined res])%list
    /\ input w' = input w
    /\ is_result res = true.
Proof.
  intros Hv. unfold end_.
  pose proof (handleTabCounts_result v (_tabCtr w) Hv) as Hres.
  destruct (handleTabCounts v (_tabCtr w)) as [res ctr].
  eexists res, _. repeat split. exact Hres.
Qed.

Lemma on_data_once (data : jsval) :
  is_candidates data = true -> calls_back_once (on_data data).
Proof.
  unfold is_candidates. intros Hd w Hw.
  unfold on_data, bind, get_input.
  destruct (i_context (input w)) as [context|]; [|contradiction].
  destruct (sorted data) as [l|]; [|discriminate].
  destruct (getMatch context l) as [dataMatch|].
  - cbn [set_input].
    match goal with
    | |- context [end_ ?v ?w1] =>
        destruct (end_once v w1 eq_refl) as (res & w' & E & Hlog & _ & Hres)
    end.
    exists res, w'. now rewrite E.
  - destruct (end_once (VArr (filterData (Some context) l)) w eq_refl)
      as (res & w' & E & Hlog & _ & Hres).
    exists res, w'. now rewrite E.
Qed.

(** A provider that delivers one value hands it to the continuation, and
    nothing else happens. *)
Lemma handleDataFormat_single (str : option string) (f : jsfunction)
  (v : jsval) (callback : jsval -> M unit) (w w' : world) :
  single_delivery f str = Some v ->
  callback v w = Ok tt w' ->
  handleDataFormat str (CFunction f) callback w = Ok tt w'.
Proof.
  unfold single_delivery, handleDataFormat. intros Hsd Hcb.
  destruct (call f str) as [e|delivered res]; [discriminate|].
  destruct (arity f <? 2)%nat.
  - unfold bind at 1. rewrite each_nothing.
    destruct res as [r|[r|r|]]; try discriminate; injection Hsd as ->;
      cbn [then_catch]; now rewrite Hcb.
  - destruct delivered as [|d [|d' delivered]];
      destruct res as [r|[r|r|]]; try discriminate;
      injection Hsd as <-; unfold each, bind, ret;
      cbn [then_catch]; now rewrite Hcb.
Qed.

Lemma handleDataFormat_once (str : option string) (conf : config)
  (callback : jsval -> M unit) :
  delivers_candidates conf ->
  (forall v, is_candidates v = true -> calls_back_once (callback v)) ->
  calls_back_once (handleDataFormat str conf callback).
Proof.
  intros Hconf Hc.
  destruct conf as [|l|f|d]; try (now apply Hc).
  destruct (Hconf str) as (v & Hsd & Hv).
  intros w Hw. destruct (Hc v Hv w Hw) as (res & w' & E & Hlog & Hres).
  exists res, w'.
  now rewrite (handleDataFormat_single str f v callback w w' Hsd E).
Qed.

Lemma or_else_find_In {A} (f g : A -> bool) (l : list A) (x : A) :
  or_else (find f l) (find g l) = Some x -> In x l.
Proof.
  unfold or_else. destruct (find f l) eqn:E.
  - intros [= <-]. now apply find_some in E.
  - intros H. now apply find_some in H.
Qed.

Lemma getMatchData_once (i : Input) (cmd : Command) :
  i_match i = Some cmd ->
  delivers_candidates (data_of (_autocomplete cmd)) ->
  (forall o, In o (options cmd) -> delivers_candidates (autocomplete o)) ->
  calls_back_once (getMatchData i on_data).
Proof.
  intros Hm Hcmd Hopts. unfold getMatchData. rewrite Hm.
  destruct (slice_to 1 _ =? "-"); [now apply on_data_once|].
  destruct (i_option i) as [option|].
  - destruct (or_else _ _) as [m|] eqn:E.
    + apply handleDataFormat_once; [|exact on_data_once].
      apply Hopts. exact (or_else_find_In _ _ _ _ E).
    + apply handleDataFormat_once; [exact Hcmd | exact on_data_once].
  - apply handleDataFormat_once; [exact Hcmd | exact on_data_once].
Qed.

Lemma by_alias_In (cmds : list Command) (m : option string) (c : Command) :
  by_alias cmds m = Some c -> In c cmds.
Proof.
  unfold by_alias.
  assert (G : forall found,
             fold_left
               (fun found cmd =>
                  if existsb (String.eqb (trim (to_String m))) (_aliases cmd)
                  then Some cmd else found) cmds found = Some c ->
             found = Some c \/ In c cmds).
  { induction cmds as [|c' cmds IH]; intros found H; [now left|].
    cbn [fold_left] in H. apply IH in H as [H | H]; [|right; now right].
    destruct (existsb _ (_aliases c')).
    - injection H as ->. right. now left.
    - now left. }
  intros H. apply G in H as [H | H]; [discriminate | exact H].
Qed.

(** [getMatchObject] on a context that is a string: it throws nothing, and
    the command it resolves is one of the registry. *)
Lemma getMatchObject_resolves (cmds : list Command) (i : Input)
  (commands : list string) :
  i_context i <> None -> i_match i = None ->
  exists i',
    getMatchObject cmds i commands = Some i'
    /\ (forall c, i_match i' = Some c -> In c cmds).
Proof.
  intros Hctx Hm. unfold getMatchObject.
  destruct (i_context i) as [context|]; [|contradiction].
  destruct (fold_left _ commands _) as [[m suffix] prefix].
  destruct (if truthy_opt m then find _ cmds else None) as [o|] eqn:E1.
  - eexists. split; [reflexivity|]. cbn [i_match]. intros c [= <-].
    destruct (truthy_opt m); [|discriminate]. now apply find_some in E1.
  - destruct (by_alias cmds m) as [o|] eqn:E2.
    + eexists. split; [reflexivity|]. cbn [i_match]. intros c [= <-].
      now apply by_alias_In in E2.
    + destruct (find _catch cmds) as [o|] eqn:E3.
      * eexists. split; [reflexivity|]. cbn [i_match]. intros c [= <-].
        now apply find_some in E3.
      * exists i. split; [reflexivity|]. rewrite Hm. discriminate.
Qed.

(** A configuration that is neither an array nor a function counts as an
    empty list of candidates: the result is [undefined], on the first
    press and on later ones. *)
Lemma handleDataFormat_unknown (str : option string) (conf : config)
  (w : world) :
  conf = CUndefined \/ (exists d, conf = CObject d) ->
  i_context (input w) <> None ->
  exists w',
    handleDataFormat str conf on_data w = Ok tt w'
    /\ log w' = (log w ++ [Callback VUndefined VUndefined])%list.
Proof.
  intros Hconf Hw.
  assert (E : handleDataFormat str conf on_data = on_data (VArr []))
    by (destruct Hconf as [-> | [d ->]]; reflexivity).
  rewrite E. unfold on_data, bind, get_input.
  destruct (i_context (input w)) as [context|]; [|contradiction].
  cbn [sorted sort]. unfold getMatch, match_, filterData, end_.
  cbn [sort filter handleTabCounts List.length Nat.eqb].
  eexists. split; [reflexivity|]. cbn [emit log].
  destruct (1 <? _tabCtr w + 1)%Z; reflexivity.
Qed.

(** C2, as the code has it: when every provider of the registry delivers
    exactly one value, an array of strings or a falsy value, [exec] throws
    nothing and calls the completion callback exactly once, with
    [undefined] as the error and [undefined], a string or a list as the
    result; and a configuration that is neither an array nor a function
    gives the result [undefined]. *)
Theorem exec_calls_back_once (cmds : list Command) (cursor : nat)
  (str : string) (w : world) :
  well_behaved cmds ->
  (exists res w',
      exec cmds cursor str w = Ok tt w'
      /\ log w' = (log w ++ [Callback VUndefined res])%list
      /\ is_result res = true)
  /\ (forall context conf w1,
         conf = CUndefined \/ (exists d, conf = CObject d) ->
         i_context (input w1) <> None ->
         exists w',
           handleDataFormat context conf on_data w1 = Ok tt w'
           /\ log w' = (log w1 ++ [Callback VUndefined VUndefined])%list).
Proof.
  intros Hcmds. split; [|exact handleDataFormat_unknown]. unfold exec.
  assert (Hctx : i_context (parseInput str cursor) <> None)
    by discriminate.
  destruct (i_context (parseInput str cursor)) as [context|] eqn:Ec;
    [clear Hctx | contradiction].
  destruct (getMatch context (getCommandNames cmds)) as [vorpalMatch|].
  - unfold bind at 1. cbn [set_input].
    match goal with
    | |- context [end_ ?v ?w1] =>
        destruct (end_once v w1 eq_refl) as (res & w' & E & Hlog & _ & Hres)
    end.
    exists res, w'. now rewrite E.
  - destruct (getMatchObject_resolves cmds (parseInput str cursor)
                (getCommandNames cmds)) as (i & Ei & Hin);
      [rewrite Ec; discriminate | reflexivity |].
    rewrite Ei. destruct (i_match i) as [cmd|] eqn:Em.
    + destruct (Hcmds cmd (Hin cmd eq_refl)) as [Hcmd Hopts].
      unfold bind at 1. cbn [set_input].
      match goal with
      | |- context [getMatchData ?j on_data ?w1] =>
          destruct (getMatchData_once j cmd Em Hcmd Hopts w1)
            as (res & w' & E & Hlog & Hres); [discriminate|]
      end.
      exists res, w'. now rewrite E.
    + unfold bind at 1. cbn [set_input].
      match goal with
      | |- context [end_ ?v ?w1] =>
          destruct (end_once v w1 eq_refl) as (res & w' & E & Hlog & _ & Hres)
      end.
      exists res, w'. now rewrite E.
Qed.

(** * Further properties *)

(** ** The order of [sort] *)

Lemma leb_refl (a : string) : (a <=? a) = true.
Proof.
  unfold String.leb. replace (a ?= a) with Eq; [reflexivity|].
  symmetry. induction a as [|x a IH]; simpl; [reflexivity|].
  unfold Ascii.compare. now rewrite N.compare_refl.
Qed.

Lemma leb_trans (a b c : string) :
  (a <=? b) = true -> (b <=? c) = true -> (a <=? c) = true.
Proof.
  unfold String.leb.
  revert b c; induction a as [|x a IH]; intros [|y b] [|z c]; simpl;
    try easy.
  unfold Ascii.compare.
  destruct (N.compare_spec (N_of_ascii x) (N_of_ascii y)),
    (N.compare_spec (N_of_ascii y) (N_of_ascii z)),
    (N.compare_spec (N_of_ascii x) (N_of_ascii z));
    try easy; try lia.
  apply IH.
Qed.

Lemma leb_false (a b : string) : (a <=? b) = false -> (b <=? a) = true.
Proof.
  intros H. destruct (String.leb_total a b) as [H'|H']; congruence.
Qed.

(** Inserting two strings gives the same list in either order. *)
Lemma insert_insert (x y : string) (l : list string) :
  insert x (insert y l) = insert y (insert x l).
Proof.
  induction l as [|a l IH]; simpl.
  - destruct (x <=? y) eqn:Exy, (y <=? x) eqn:Eyx; try reflexivity.
    + now rewrite (String.leb_antisym _ _ Exy Eyx).
    + apply leb_false in Exy. congruence.
  - destruct (y <=? a) eqn:Eya, (x <=? a) eqn:Exa; simpl.
    + destruct (x <=? y) eqn:Exy, (y <=? x) eqn:Eyx;
        rewrite ?Exa, ?Eya; try reflexivity.
      * now rewrite (String.leb_antisym _ _ Exy Eyx).
      * apply leb_false in Exy. congruence.
    + destruct (x <=? y) eqn:Exy.
      * rewrite (leb_trans _ _ _ Exy Eya) in Exa. discriminate.
      * now rewrite Exa, Eya.
    + destruct (y <=? x) eqn:Eyx.
      * rewrite (leb_trans _ _ _ Eyx Exa) in Eya. discriminate.
      * now rewrite Exa, Eya.
    + now rewrite Exa, Eya, IH.
Qed.

Lemma sort_Permutation (l l' : list string) :
  Permutation l l' -> sort l = sort l'.
Proof.
  induction 1 as [|x l l' _ IH|x y l|l l' l'' _ IH1 _ IH2]; simpl.
  - reflexivity.
  - now rewrite IH.
  - apply insert_insert.
  - now rewrite IH1.
Qed.

Lemma insert_Permutation (x : string) (l : list string) :
  Permutation (insert x l) (x :: l).
Proof.
  induction l as [|a l IH]; simpl; [reflexivity|].
  destruct (x <=? a); [reflexivity|].
  rewrite IH. apply perm_swap.
Qed.

Lemma Permutation_sort (l : list string) : Permutation (sort l) l.
Proof.
  induction l as [|a l IH]; simpl; [reflexivity|].
  rewrite insert_Permutation. now constructor.
Qed.

Lemma sort_In (y : string) (l : list string) : In y (sort l) <-> In y l.
Proof.
  split; apply Permutation_in;
    [apply Permutation_sort | symmetry; apply Permutation_sort].
Qed.

Lemma insert_ascending (x : string) (l : list string) :
  ascending l -> ascending (insert x l).
Proof.
  unfold ascending. induction 1 as [|a l Hl IH Ha]; simpl.
  - repeat constructor.
  - destruct (x <=? a) eqn:E.
    + constructor; [now constructor|]. constructor; [exact E|].
      eapply Forall_impl; [|exact Ha].
      intros b Hb. exact (leb_trans _ _ _ E Hb).
    + constructor; [exact IH|].
      eapply Permutation_Forall;
        [symmetry; apply insert_Permutation|].
      constructor; [now apply leb_false | exact Ha].
Qed.

Lemma sort_ascending (l : list string) : ascending (sort l).
Proof.
  induction l as [|a l IH]; simpl; [constructor | now apply insert_ascending].
Qed.

Lemma sort_of_ascending (l : list string) : ascending l -> sort l = l.
Proof.
  unfold ascending. induction 1 as [|a l Hl IH Ha]; simpl; [reflexivity|].
  rewrite IH. destruct l as [|b l]; [reflexivity|]. simpl.
  inversion Ha as [|? ? Hab _]; subst. now rewrite Hab.
Qed.

(** ** [autocomplete.match] and [getMatch] *)

Lemma filter_nil {A} (f : A -> bool) (l : list A) :
  (forall x, In x l -> f x = false) -> filter f l = [].
Proof.
  induction l as [|a l IH]; intros H; [reflexivity|]. simpl.
  rewrite (H a (or_introl eq_refl)). apply IH.
  intros x Hx. apply H. now right.
Qed.

Lemma filter_id {A} (f : A -> bool) (l : list A) :
  (forall x, In x l -> f x = true) -> filter f l = l.
Proof.
  induction l as [|a l IH]; intros H; [reflexivity|]. simpl.
  rewrite (H a (or_introl eq_refl)). f_equal. apply IH.
  intros x Hx. apply H. now right.
Qed.

Lemma filter_sort_single (f : string -> bool) (L : list string)
  (m : string) :
  filter f L = [m] -> filter f (sort L) = [m].
Proof.
  intros H. pose proof (filter_sort_length f L) as Hlen.
  rewrite H in Hlen.
  destruct (filter f (sort L)) as [|m' [|m'' r]] eqn:E; try discriminate.
  assert (Hin : In m' (filter f L)).
  { apply filter_In. assert (Hm : In m' (filter f (sort L)))
      by (rewrite E; now left).
    apply filter_In in Hm as [H1 H2]. split; [now apply In_sort|exact H2]. }
  rewrite H in Hin. destruct Hin as [<-|[]]. reflexivity.
Qed.

(** With no candidate that matches the probe, an empty list included,
    [match] returns [undefined]. *)
Theorem match_no_candidate (p : string) (L : list string) :
  (forall a, In a L -> matching p a = false) -> match_ p L = None.
Proof.
  intros H. unfold match_. rewrite filter_nil; [reflexivity|].
  intros a Ha. apply H. now apply In_sort.
Qed.

(** With exactly one candidate that matches the probe, wherever it stands
    in the list, [match] returns it as it is written, a space added. *)
Theorem match_single_candidate (p : string) (L : list string) (m : string) :
  filter (matching p) L = [m] -> match_ p L = Some (m ++ " ").
Proof.
  intros H. unfold match_. now rewrite (filter_sort_single _ _ _ H).
Qed.

(** What [match] returns when several candidates match: it starts with
    the lower-cased probe and differs from the probe. *)
Lemma match_several (p : string) (L : list string) (r : string) :
  2 <= List.length (filter (matching p) L) ->
  match_ p L = Some r ->
  prefix_of (toLowerCase p) r /\ r <> p.
Proof.
  intros Hmany. unfold match_.
  rewrite <- (filter_sort_length (matching p)) in Hmany.
  destruct (filter (matching p) (sort L)) as [|first [|second rest]] eqn:EM;
    simpl in Hmany; try lia.
  set (matches := first :: second :: rest) in *.
  assert (Hfirst : matching p first = true).
  { assert (Hin : In first (filter (matching p) (sort L)))
      by (rewrite EM; now left).
    now apply filter_In in Hin. }
  destruct (extend_spec matches first (S (length first) - length p)
              (length p) p) as [[Hr _] | (k' & Hk' & Hr & _)]; rewrite Hr.
  - now rewrite String.eqb_refl.
  - destruct (String.eqb_spec (slice_to k' (toLowerCase (strip first))) p)
      as [|Hne]; [discriminate|].
    intros [= <-]. split; [|exact Hne].
    unfold prefix_of. rewrite length_toLowerCase.
    rewrite slice_to_slice_to by lia.
    rewrite <- toLowerCase_slice_to.
    unfold matching in Hfirst. now apply String.eqb_eq in Hfirst.
Qed.


Lemma match_not_empty (p : string) (L : list string) :
  match_ p L <> Some "".
Proof.
  intros H.
  destruct (le_lt_dec 2 (List.length (filter (matching p) L))) as [Hm|Hm].
  - destruct (match_several p L "" Hm H) as [Hp Hne].
    unfold prefix_of in Hp. destruct p as [|c p]; [now apply Hne|].
    destruct (length (toLowerCase (String c p))); discriminate.
  - unfold match_ in H.
    rewrite <- (filter_sort_length (matching p)) in Hm.
    destruct (filter (matching p) (sort L)) as [|m [|m' r]];
      simpl in Hm; try lia; [discriminate|].
    destruct m; discriminate.
Qed.

(** [getMatch] returns what [match] returns for the context without its
    leading whitespace, with one space in front for each whitespace
    character removed; its test of the match never discards one. *)
Theorem getMatch_restores_spaces (ctx : string) (data : list string) :
  getMatch ctx data
  = option_map
      (fun m => spaces (length ctx - length (trim_start ctx)) ++ m)
      (match_ (trim_start ctx) data).
Proof.
  unfold getMatch. pose proof (match_not_empty (trim_start ctx) data) as H.
  destruct (match_ (trim_start ctx) data) as [m|]; [|reflexivity].
  destruct m as [|c m]; [now contradiction H | reflexivity].
Qed.

(** What [match] and [getMatch] return does not depend on the order of the
    candidates. *)
Theorem match_order_independent (p : string) (L L' : list string) :
  Permutation L L' ->
  match_ p L = match_ p L' /\ getMatch p L = getMatch p L'.
Proof.
  intros H. unfold getMatch, match_.
  now rewrite (sort_Permutation L L' H).
Qed.

(** ** [getCommandNames] *)

(** [getCommandNames] lists the names and the aliases of the commands, each
    as often as it is registered, in ascending order; sorting the list
    again, as [autocomplete.match] does, leaves it as it is. *)
Theorem getCommandNames_spec (cmds : list Command) :
  ascending (getCommandNames cmds)
  /\ Permutation (getCommandNames cmds)
       (map _name cmds ++ List.concat (map _aliases cmds))
  /\ (forall x, In x (getCommandNames cmds) <->
                exists c, In c cmds /\ (_name c = x \/ In x (_aliases c)))
  /\ sort (getCommandNames cmds) = getCommandNames cmds.
Proof.
  unfold getCommandNames. repeat split.
  - apply sort_ascending.
  - apply Permutation_sort.
  - rewrite sort_In, in_app_iff, in_map_iff, in_concat.
    intros [(c & Hn & Hc) | (l & Hl & Hx)].
    + exists c. split; [exact Hc | now left].
    + apply in_map_iff in Hl as (c & <- & Hc).
      exists c. split; [exact Hc | now right].
  - rewrite sort_In, in_app_iff, in_map_iff, in_concat.
    intros (c & Hc & [Hn | Ha]).
    + left. now exists c.
    + right. exists (_aliases c). split; [now apply in_map | exact Ha].
  - apply sort_of_ascending, sort_ascending.
Qed.

(** ** [filterData] *)

(** A context that is [undefined], empty or only whitespace filters
    nothing out. *)
Theorem filterData_blank (str : option string) (data : list string) :
  trim (or_empty str) = "" -> filterData str data = data.
Proof.
  intros H. unfold filterData. rewrite H. apply filter_id.
  intros x _. reflexivity.
Qed.

(** What [filterData] keeps is an element of the data whose stripped text
    starts with the trimmed context, and so a candidate that
    [autocomplete.match] accepts for the trimmed context as the probe. *)
Theorem filterData_sound (str : option string) (data : list string)
  (x : string) :
  In x (filterData str data) ->
  In x data
  /\ prefix_of (trim (or_empty str)) (strip x)
  /\ matching (trim (or_empty str)) x = true.
Proof.
  unfold filterData. intros H. apply filter_In in H as [Hin Hx].
  apply String.eqb_eq in Hx. repeat split; try assumption.
  unfold matching. rewrite Hx. apply String.eqb_refl.
Qed.

(** ** [parseInput] *)

Lemma split_no_char (sep : ascii) (s : string) :
  no_char sep s = true -> split sep s = [s].
Proof.
  induction s as [|c s IH]; simpl; intros H; [reflexivity|].
  apply andb_prop in H as [Hc Hs].
  apply negb_true_iff in Hc. rewrite Hc, IH by assumption. reflexivity.
Qed.

Lemma split_parts_no_char (sep : ascii) (s : string) :
  Forall (fun x => no_char sep x = true) (split sep s).
Proof.
  induction s as [|c s IH]; simpl; [repeat constructor|].
  destruct (Ascii.eqb c sep) eqn:E; [now constructor|].
  destruct (split sep s) as [|x xs]; [repeat constructor|].
  - simpl. now rewrite E.
  - inversion IH; subst. constructor; [|assumption].
    simpl. now rewrite E.
Qed.

Lemma Forall_last_elt {A} (P : A -> Prop) (l : list A) (d : A) :
  Forall P l -> l <> [] -> P (last l d).
Proof.
  induction 1 as [|a l Ha Hl IH]; intros Hne; [contradiction|].
  destruct l as [|b l]; [exact Ha|]. apply IH. discriminate.
Qed.

Lemma join_snoc_empty (sep : string) (l : list string) :
  l <> [] -> join sep (l ++ [""])%list = join sep l ++ sep.
Proof.
  induction l as [|x l IH]; intros Hne; [contradiction|].
  destruct l as [|y l]; [simpl; now rewrite append_nil_r|].
  change (join sep ((x :: y :: l) ++ [""])%list)
    with (x ++ sep ++ join sep ((y :: l) ++ [""])%list).
  rewrite IH by discriminate.
  change (join sep (x :: y :: l)) with (x ++ sep ++ join sep (y :: l)).
  now rewrite !append_assoc.
Qed.

(** The context [parseInput] gives holds no pipe, and the prefix is empty
    or ends with one: the context is the last segment of the text before
    the cursor. *)
Theorem parseInput_last_segment (str : string) (idx : nat) :
  exists context,
    i_context (parseInput str idx) = Some context
    /\ no_char "|" context = true
    /\ (i_prefix (parseInput str idx) = ""
        \/ exists a, i_prefix (parseInput str idx) = a ++ "|")
    /\ i_prefix (parseInput str idx) ++ context = slice_to idx str.
Proof.
  exists (last (split "|" (slice_to idx str)) "").
  split; [reflexivity|]. split; [|split].
  - apply (Forall_last_elt (fun x => no_char "|" x = true)).
    + apply split_parts_no_char.
    + apply split_not_nil.
  - unfold parseInput; simpl.
    destruct (removelast (split "|" (slice_to idx str))) as [|x l] eqn:E.
    + now left.
    + right. exists (join "|" (x :: l)).
      now rewrite join_snoc_empty by discriminate.
  - apply (parseInput_before_cursor str idx).
Qed.

Lemma split_app_length (sep : ascii) (a b : string) :
  2 <= List.length (split sep (a ++ String sep b)).
Proof.
  induction a as [|c a IH]; simpl.
  - rewrite Ascii.eqb_refl. simpl.
    pose proof (split_not_nil sep b). destruct (split sep b); simpl;
      [contradiction | lia].
  - destruct (Ascii.eqb c sep); [simpl; lia|].
    destruct (split sep (a ++ String sep b)); simpl in *; lia.
Qed.

Lemma last_split_app (sep : ascii) (a b : string) :
  last (split sep (a ++ String sep b)) "" = last (split sep b) "".
Proof.
  induction a as [|c a IH]; simpl.
  - rewrite Ascii.eqb_refl.
    pose proof (split_not_nil sep b). now destruct (split sep b).
  - pose proof (split_app_length sep a b) as Hlen.
    destruct (split sep (a ++ String sep b)) as [|x [|y l]];
      simpl in Hlen; try lia.
    now destruct (Ascii.eqb c sep).
Qed.

Lemma append_length (a b : string) :
  length (a ++ b) = length a + length b.
Proof. induction a as [|x a IH]; simpl; [reflexivity | now rewrite IH]. Qed.

Lemma append_inv_tail (x y b : string) : x ++ b = y ++ b -> x = y.
Proof.
  revert y; induction x as [|c x IH]; intros [|d y] H; simpl in H.
  - reflexivity.
  - apply (f_equal length) in H. simpl in H. rewrite append_length in H. lia.
  - apply (f_equal length) in H. simpl in H. rewrite append_length in H. lia.
  - injection H as -> H. f_equal. now apply IH.
Qed.

(** With the cursor at the end of a line that ends in a segment without a
    pipe, the context is that segment and the prefix is all that stands
    before it, the pipe included. *)
Theorem parseInput_pipe (a b : string) :
  no_char "|" b = true ->
  parseInput (a ++ "|" ++ b) (length (a ++ "|" ++ b))
  = {| i_raw := a ++ "|" ++ b; i_prefix := a ++ "|"; i_suffix := "";
       i_context := Some b; i_match := None; i_option := None |}.
Proof.
  intros Hb. set (line := a ++ "|" ++ b).
  pose proof (parseInput_before_cursor line (length line)) as H.
  unfold parseInput in *. cbn [i_prefix i_context or_empty] in H.
  rewrite slice_to_all in * by lia. rewrite slice_from_all by lia.
  assert (Hlast : last (split "|" line) "" = b).
  { subst line. change (a ++ "|" ++ b) with (a ++ String "|" b).
    rewrite last_split_app, split_no_char by assumption. reflexivity. }
  rewrite Hlast in *.
  assert (Hpre : join "|" (removelast (split "|" line) ++ [""])%list
                 = a ++ "|").
  { apply (append_inv_tail _ _ b). rewrite H. subst line.
    now rewrite append_assoc. }
  now rewrite Hpre.
Qed.

(** ** [getSuffix], further *)

Lemma line_terminator_is_space (c : ascii) :
  is_line_terminator c = true -> is_space c = true.
Proof.
  unfold is_line_terminator, is_space. intros H.
  apply orb_true_iff in H as [H|H]; apply N.eqb_eq in H; now rewrite H.
Qed.

Lemma from_space_app (w : string) (c : ascii) (r : string) :
  has_space w = false -> is_space c = true ->
  from_space (w ++ String c r) = String c r
  /\ has_space (w ++ String c r) = true.
Proof.
  intros Hw Hc. induction w as [|x w IH]; simpl.
  - now rewrite Hc.
  - simpl in Hw. apply orb_false_elim in Hw as [Hx Hw].
    rewrite Hx. destruct (IH Hw) as [-> ->]. now split.
Qed.

(** Of a remainder that goes on with the rest of a word and then a
    whitespace character, [getSuffix] keeps what follows that character;
    so it does of a remainder that begins with a space. *)
Theorem getSuffix_drops_word (w : string) (c : ascii) (r : string) :
  has_space w = false -> is_space c = true ->
  w <> "" \/ c = " "%char ->
  getSuffix (w ++ String c r) = r.
Proof.
  intros Hw Hc Hor. unfold getSuffix.
  destruct w as [|x w].
  - destruct Hor as [Hor | ->]; [contradiction | reflexivity].
  - simpl in Hw. apply orb_false_elim in Hw as [Hx Hw].
    assert (Hsp : (slice_to 1 (String x w ++ String c r) =? " ") = false).
    { simpl. destruct (Ascii.eqb_spec x " ") as [->|Hne];
        [discriminate | reflexivity]. }
    rewrite Hsp. cbn [append drop_partial_word].
    destruct (is_line_terminator x) eqn:El.
    + apply line_terminator_is_space in El. congruence.
    + destruct (from_space_app w c r Hw Hc) as [-> ->]. reflexivity.
Qed.

Lemma from_space_suffix (r : string) : exists d, r = d ++ from_space r.
Proof.
  induction r as [|c r [d IH]]; simpl; [now exists ""|].
  destruct (is_space c); [now exists ""|].
  exists (String c d). simpl. now rewrite <- IH.
Qed.

Lemma from_space_length (r : string) : length (from_space r) <= length r.
Proof.
  destruct (from_space_suffix r) as [d H].
  rewrite H at 2. rewrite append_length. lia.
Qed.

Lemma drop_partial_word_length (s : string) :
  length (drop_partial_word s) <= length s.
Proof.
  induction s as [|c s IH]; simpl; [lia|].
  destruct (negb (is_line_terminator c) && has_space s); simpl; [|lia].
  pose proof (from_space_length s). lia.
Qed.

Lemma slice_from_1_length (s : string) :
  length (slice_from 1 s) = pred (length s).
Proof. destruct s; reflexivity. Qed.

(** [getSuffix] drops at least one character of a remainder that is not
    empty, and what it returns is an end of the remainder unless the
    remainder begins with a line terminator. *)
Theorem getSuffix_shortens (s : string) :
  length (getSuffix s) <= pred (length s)
  /\ (forall c r, s = String c r -> is_line_terminator c = false ->
                  exists d, s = d ++ getSuffix s).
Proof.
  split.
  - unfold getSuffix. rewrite slice_from_1_length.
    destruct (slice_to 1 s =? " "); [lia|].
    pose proof (drop_partial_word_length s). lia.
  - intros c r -> Hc. unfold getSuffix.
    destruct (slice_to 1 (String c r) =? " ");
      [now exists (String c "")|].
    cbn [drop_partial_word]. rewrite Hc. cbn [negb andb].
    destruct (has_space r) eqn:Es.
    + destruct (from_space_suffix r) as [d Hd].
      destruct (from_space r) as [|c' r'] eqn:Ef.
      * exists (String c r). simpl. now rewrite append_nil_r.
      * exists (String c (d ++ String c' "")). simpl.
        rewrite append_assoc. simpl. now rewrite <- Hd.
    + rewrite drop_partial_word_no_space by assumption.
      now exists (String c "").
Qed.

(** ** [handleTabCounts], further *)

(** From a counter that is not negative: the counter stays so; it is 0
    afterwards exactly when the result was no list; and a list that is not
    empty is withheld exactly when the counter was 0, which is right after
    a result that was no list. *)
Theorem handleTabCounts_counter (ctr : Z) (v : jsval) (l : list string) :
  (0 <= ctr)%Z ->
  (0 <= snd (handleTabCounts v ctr))%Z
  /\ (snd (handleTabCounts v ctr) = 0%Z <-> forall l', v <> VArr l')
  /\ (l <> [] ->
      (fst (handleTabCounts (VArr l) ctr) = VUndefined <-> ctr = 0%Z)).
Proof.
  intros Hctr. repeat split.
  - destruct v; simpl; lia.
  - destruct v; simpl; intros H l'; try discriminate. lia.
  - destruct v as [| |l'|]; simpl; intros H; try reflexivity.
    now contradiction (H l').
  - simpl. destruct (Z.ltb_spec 1 (ctr + 1)); [|lia].
    destruct l; [contradiction | discriminate].
  - intros ->. reflexivity.
Qed.

(** ** [getMatchObject], further *)

(** With no registered name that is a prefix of the context, no command
    that has the alias [undefined] and no catch-all command,
    [getMatchObject] returns the input as it was. *)
Theorem getMatchObject_unresolved (cmds : list Command) (input : Input)
  (commands : list string) (context : string) :
  i_context input = Some context ->
  (forall cmd, In cmd commands -> hit (trim_start context) cmd = false) ->
  (forall c, In c cmds -> ~ In "undefined" (_aliases c)) ->
  find _catch cmds = None ->
  getMatchObject cmds input commands = Some input.
Proof.
  intros Hctx Hhit Halias Hcatch. unfold getMatchObject.
  rewrite Hctx, scan_no_hit by assumption.
  cbn [truthy_opt]. rewrite by_alias_none by exact Halias.
  now rewrite Hcatch.
Qed.

(** The scan leaves in [match] the last name that is a prefix of the
    context, and in [suffix] what follows it. *)
Lemma scan_keeps_last_hit (trimmed : string) (commands : list string) :
  forall (m suffix : option string) (prefix : string),
    fst (fold_left (scan trimmed) commands (m, suffix, prefix))
    = match filter (hit trimmed) commands with
      | [] => (m, suffix)
      | h :: r =>
          (Some (last (h :: r) ""),
           Some (slice_from (length (last (h :: r) "")) trimmed))
      end.
Proof.
  induction commands as [|cmd commands IH]; intros m suffix prefix;
    [reflexivity|].
  cbn [fold_left filter]. unfold scan at 2.
  destruct (hit trimmed cmd); rewrite IH; [|reflexivity].
  now destruct (filter (hit trimmed) commands).
Qed.

Lemma compare_longer (a b : string) :
  prefix_of b a -> length b < length a -> (a ?= b) = Gt.
Proof.
  unfold prefix_of. revert a; induction b as [|y b IH]; intros [|x a];
    simpl; intros Hp Hl; try lia; try reflexivity.
  injection Hp as -> Hp. unfold Ascii.compare.
  rewrite N.compare_refl. apply IH; [exact Hp | lia].
Qed.

(** Of two prefixes of one string the one that sorts first is the
    shorter. *)
Lemma prefix_leb_length (t a b : string) :
  prefix_of a t -> prefix_of b t -> (a <=? b) = true ->
  length a <= length b.
Proof.
  intros Ha Hb Hle.
  destruct (Nat.le_gt_cases (length a) (length b)) as [|Hlt];
    [assumption|].
  assert (Hba : prefix_of b a).
  { unfold prefix_of. rewrite <- (prefix_of_agree a t) by (assumption || lia).
    exact Hb. }
  unfold String.leb in Hle. now rewrite (compare_longer a b Hba Hlt) in Hle.
Qed.

Lemma last_In {A} (l : list A) (d : A) : l <> [] -> In (last l d) l.
Proof.
  induction l as [|a l IH]; intros H; [contradiction|].
  destruct l as [|b l]; [now left|]. right. apply IH. discriminate.
Qed.

Lemma ascending_last_max (l : list string) (x : string) :
  ascending l -> In x l -> (x <=? last l "") = true.
Proof.
  unfold ascending. induction 1 as [|a l Hl IH Ha]; intros Hx;
    [contradiction|].
  destruct l as [|b l]; [destruct Hx as [<-|[]]; apply leb_refl|].
  change (last (a :: b :: l) "") with (last (b :: l) "").
  destruct Hx as [<-|Hx]; [|now apply IH].
  rewrite Forall_forall in Ha. apply Ha. apply last_In. discriminate.
Qed.

Lemma filter_ascending (f : string -> bool) (l : list string) :
  ascending l -> ascending (filter f l).
Proof.
  unfold ascending. induction 1 as [|a l Hl IH Ha]; simpl; [constructor|].
  destruct (f a); [|exact IH]. constructor; [exact IH|].
  rewrite Forall_forall in *. intros x Hx. apply Ha.
  now apply filter_In in Hx.
Qed.

Lemma by_alias_sound (cmds : list Command) (m : option string)
  (c : Command) :
  by_alias cmds m = Some c ->
  In c cmds /\ In (trim (to_String m)) (_aliases c).
Proof.
  unfold by_alias.
  assert (G : forall found,
             fold_left
               (fun found cmd =>
                  if existsb (String.eqb (trim (to_String m))) (_aliases cmd)
                  then Some cmd else found) cmds found = Some c ->
             found = Some c
             \/ (In c cmds /\ In (trim (to_String m)) (_aliases c))).
  { induction cmds as [|c' cmds IH]; intros found H; [now left|].
    cbn [fold_left] in H. apply IH in H as [H | [H1 H2]].
    - destruct (existsb _ (_aliases c')) eqn:E; [|now left].
      injection H as ->. right. split; [now left|].
      apply existsb_exists in E as (a & Ha & Heq).
      apply String.eqb_eq in Heq. now subst a.
    - right. split; [now right | exact H2]. }
  intros H. apply G in H as [H | H]; [discriminate | exact H].
Qed.

Lemma by_alias_complete (cmds : list Command) (m : option string)
  (c : Command) :
  In c cmds -> In (trim (to_String m)) (_aliases c) ->
  by_alias cmds m <> None.
Proof.
  unfold by_alias. intros Hc Ha.
  assert (G : forall found,
             found <> None
             \/ (exists c, In c cmds
                           /\ In (trim (to_String m)) (_aliases c)) ->
             fold_left
               (fun found cmd =>
                  if existsb (String.eqb (trim (to_String m))) (_aliases cmd)
                  then Some cmd else found) cmds found <> None).
  { clear c Hc Ha. induction cmds as [|c' cmds IH]; intros found H.
    - destruct H as [H | (c & [] & _)]. exact H.
    - cbn [fold_left]. apply IH.
      destruct (existsb _ (_aliases c')) eqn:E; [left; discriminate|].
      destruct H as [H | (c & [<-|Hc] & Ha)].
      + now left.
      + exfalso. rewrite <- not_true_iff_false in E. apply E.
        apply existsb_exists. exists (trim (to_String m)).
        split; [exact Ha | apply String.eqb_refl].
      + right. now exists c. }
  apply G. right. now exists c.
Qed.

(** When some registered name is a prefix of the context, and names and
    aliases carry no outer whitespace: the name [getMatchObject] consumes
    is the longest registered name that is a prefix of the context, the
    new context is what follows it, the command is one of the registry
    that has it as its name or as an alias, and [prefix] grows by the
    leading spaces and by every registered name that is a prefix of the
    context. *)
Theorem getMatchObject_longest_name (cmds : list Command) (input : Input)
  (context h : string) :
  i_context input = Some context ->
  (forall n, In n (getCommandNames cmds) -> trim n = n) ->
  In h (getCommandNames cmds) ->
  hit (trim_start context) h = true ->
  exists best c,
    In best (getCommandNames cmds)
    /\ hit (trim_start context) best = true
    /\ (forall n, In n (getCommandNames cmds) ->
                  hit (trim_start context) n = true ->
                  length n <= length best)
    /\ In c cmds
    /\ (_name c = best \/ In best (_aliases c))
    /\ getMatchObject cmds input (getCommandNames cmds)
       = Some {| i_raw := i_raw input;
                 i_prefix :=
                   i_prefix input
                   ++ spaces (length context - length (trim_start context))
                   ++ join ""
                        (filter (hit (trim_start context))
                           (getCommandNames cmds));
                 i_suffix := i_suffix input;
                 i_context :=
                   Some (slice_from (length best) (trim_start context));
                 i_match := Some c;
                 i_option := i_option input |}.
Proof.
  intros Hctx Htrim Hh Hhit.
  set (t := trim_start context) in *.
  set (names := getCommandNames cmds) in *.
  set (hits := filter (hit t) names).
  assert (Hhits : In h hits) by (apply filter_In; now split).
  assert (Hne : hits <> []) by (intros E; rewrite E in Hhits; contradiction).
  set (best := last hits "").
  assert (Hbest : In best names /\ hit t best = true)
    by (apply filter_In; now apply last_In).
  destruct Hbest as [Hbn Hbh].
  assert (Hpre : forall n, hit t n = true -> prefix_of n t).
  { intros n Hn. unfold hit in Hn. apply andb_prop in Hn as [Hn _].
    now apply String.eqb_eq in Hn. }
  assert (Hmax : forall n, In n names -> hit t n = true ->
                           length n <= length best).
  { intros n Hn1 Hn2.
    apply (prefix_leb_length t); [now apply Hpre.. |].
    apply ascending_last_max.
    - apply filter_ascending. apply sort_ascending.
    - apply filter_In. now split. }
  assert (Hreg : exists c0, In c0 cmds
                            /\ (_name c0 = best \/ In best (_aliases c0))).
  { unfold names, getCommandNames in Hbn.
    rewrite sort_In, in_app_iff, in_map_iff, in_concat in Hbn.
    destruct Hbn as [(c0 & Hn & Hc) | (l & Hl & Hx)].
    - exists c0. split; [exact Hc | now left].
    - apply in_map_iff in Hl as (c0 & <- & Hc).
      exists c0. split; [exact Hc | now right]. }
  assert (Htruthy : truthy best = true).
  { unfold hit in Hbh. apply andb_prop in Hbh as [_ Hb].
    rewrite (Htrim best Hbn) in Hb. exact Hb. }
  unfold getMatchObject. rewrite Hctx. fold t names.
  pose proof (scan_keeps_last_hit t names None None
                (spaces (length context - length t))) as Hfst.
  pose proof (scan_appends_every_hit t names None None
                (spaces (length context - length t))) as Hsnd.
  fold hits in Hfst, Hsnd.
  destruct (fold_left (scan t) names
              (None, None, spaces (length context - length t)))
    as [[m suffix] prefix].
  cbn [fst snd] in Hfst, Hsnd.
  destruct hits as [|h0 r0] eqn:Eh; [contradiction|].
  fold best in Hfst. injection Hfst as -> ->. subst prefix.
  cbn [truthy_opt to_String]. rewrite Htruthy, (Htrim best Hbn).
  destruct (find (fun c => _name c =? best) cmds) as [c|] eqn:Ef.
  - apply find_some in Ef as [Hc Hn]. apply String.eqb_eq in Hn.
    exists best, c. repeat split; try assumption. now left.
  - destruct Hreg as (c0 & Hc0 & [Hn | Ha]).
    + pose proof (find_none _ _ Ef c0 Hc0) as Hno. cbv beta in Hno.
      rewrite Hn, String.eqb_refl in Hno. discriminate.
    + assert (Hal : by_alias cmds (Some best) <> None).
      { apply (by_alias_complete cmds (Some best) c0 Hc0).
        cbn [to_String]. now rewrite (Htrim best Hbn). }
      destruct (by_alias cmds (Some best)) as [c|] eqn:Eb;
        [|contradiction].
      apply by_alias_sound in Eb as [Hc Hca].
      cbn [to_String] in Hca. rewrite (Htrim best Hbn) in Hca.
      exists best, c. repeat split; try assumption. now right.
Qed.

(** ** [parseMatchSection] *)

Lemma split_has_char (sep : ascii) (s : string) :
  no_char sep s = false -> 2 <= List.length (split sep s).
Proof.
  induction s as [|c s IH]; simpl; [discriminate|].
  destruct (Ascii.eqb c sep); simpl.
  - intros _. pose proof (split_not_nil sep s).
    destruct (split sep s); simpl; [contradiction | lia].
  - intros H. specialize (IH H).
    destruct (split sep s); simpl in *; lia.
Qed.

(** [parseMatchSection] leaves a context without a space; the prefix and
    the context together are the text as it was when the context held a
    space, and hold one space more, before the context, when it held
    none. *)
Theorem parseMatchSection_text (input : Input) (context : string) :
  i_context input = Some context ->
  exists last_,
    i_context (parseMatchSection input) = Some last_
    /\ no_char " " last_ = true
    /\ i_prefix (parseMatchSection input) ++ last_
       = i_prefix input
         ++ (if no_char " " context then " " ++ context else context)
    /\ i_match (parseMatchSection input) = i_match input.
Proof.
  intros Hctx. unfold parseMatchSection. rewrite Hctx. cbn [or_empty].
  exists (last (split " " context) ""). cbn [i_context i_prefix i_match].
  repeat split.
  - apply (Forall_last_elt (fun x => no_char " " x = true)).
    + apply split_parts_no_char.
    + apply split_not_nil.
  - rewrite !append_assoc. f_equal.
    destruct (no_char " " context) eqn:E.
    + now rewrite split_no_char.
    + pose proof (split_has_char _ _ E) as Hlen.
      rewrite <- (join_split " " context) at 3.
      rewrite <- (join_removelast_last " " (split " " context))
        by apply split_not_nil.
      rewrite join_snoc_empty, append_assoc; [reflexivity|].
      destruct (split " " context) as [|x [|y l]]; simpl in Hlen; try lia.
      discriminate.
Qed.

(** ** Providers that deliver no list *)

Lemma on_data_throws (v : jsval) (w : world) :
  is_candidates v = false -> i_context (input w) <> None ->
  on_data v w = Throw TypeError w.
Proof.
  unfold is_candidates, on_data, bind, get_input. intros Hv Hw.
  destruct (i_context (input w)); [|contradiction].
  now destruct (sorted v).
Qed.

(** A provider without a delivery callback whose value is neither a list
    nor falsy: returned, it makes [handleDataFormat] throw a [TypeError]
    with nothing called back; as the value its promise is fulfilled or
    rejected with, it leaves a [TypeError] as an unhandled rejection, with
    nothing called back either.  A promise that stays pending leaves no
    trace at all. *)
Theorem handleDataFormat_not_a_list (str : option string) (f : jsfunction)
  (delivered : list jsval) (res : returned) (w : world) :
  call f str = Return delivered res ->
  arity f < 2 ->
  i_context (input w) <> None ->
  match res with
  | RetVal v =>
      is_candidates v = false ->
      handleDataFormat str (CFunction f) on_data w = Throw TypeError w
  | RetThenable (Fulfilled v) | RetThenable (Rejected v) =>
      is_candidates v = false ->
      handleDataFormat str (CFunction f) on_data w
      = emit (UnhandledRejection TypeError) w
  | RetThenable Pending =>
      handleDataFormat str (CFunction f) on_data w = Ok tt w
  end.
Proof.
  intros Hcall Ha Hw. apply Nat.ltb_lt in Ha.
  destruct res as [v|[v|v|]]; try intros Hv;
    unfold handleDataFormat; rewrite Hcall, Ha; unfold bind at 1;
    rewrite each_nothing; cbn [then_catch].
  - now apply on_data_throws.
  - rewrite (on_data_throws v w Hv Hw).
    now rewrite (on_data_throws TypeError w eq_refl Hw).
  - now rewrite (on_data_throws v w Hv Hw).
  - reflexivity.
Qed.

(** ** [exec] *)

Lemma parseInput_no_pipe (str : string) :
  no_char "|" str = true ->
  parseInput str (length str)
  = {| i_raw := str; i_prefix := ""; i_suffix := "";
       i_context := Some str; i_match := None; i_option := None |}.
Proof.
  intros H. unfold parseInput.
  rewrite slice_to_all, slice_from_all by lia.
  now rewrite split_no_char.
Qed.

(** A line without a pipe and without leading whitespace that exactly one
    registered name or alias matches, the cursor at its end: [exec] calls
    back once with that name and a space, stripped, and resets the
    counter. *)
Theorem exec_completes_unique_name (cmds : list Command) (str m : string)
  (w : world) :
  no_char "|" str = true ->
  trim_start str = str ->
  filter (matching str) (getCommandNames cmds) = [m] ->
  exists w',
    exec cmds (length str) str w = Ok tt w'
    /\ _tabCtr w' = 0%Z
    /\ log w' = (log w ++ [Callback VUndefined (VStr (strip (m ++ " ")))])%list.
Proof.
  intros Hpipe Htrim Hone. unfold exec.
  rewrite (parseInput_no_pipe str Hpipe). cbn [i_context].
  unfold getMatch, match_. rewrite Htrim.
  rewrite (filter_sort_single _ _ _ Hone), Nat.sub_diag.
  assert (Ht : truthy (m ++ " ") = true) by (destruct m; reflexivity).
  rewrite Ht. unfold bind, set_input, end_, emit, assembleInput. cbn.
  rewrite append_nil_r. eexists. repeat split.
Qed.




(** ** The option flags *)

(** The list of flags holds one entry for each option that has a long or
    a short form, in the order of the options; an option with neither is
    left out. *)
Theorem flags_skip (opts : list Opt) :
  flags opts = map preferred (filter has_flag opts)
  /\ List.length (flags opts) <= List.length opts.
Proof.
  assert (E : flags opts = map preferred (filter has_flag opts)).
  { induction opts as [|o opts IH]; [reflexivity|].
    cbn [flags filter]. unfold has_flag at 1.
    destruct (truthy_opt (long o)) eqn:El, (truthy_opt (short o)) eqn:Es;
      cbn [orb negb andb map]; rewrite ?IH; unfold preferred;
      rewrite ?El; reflexivity. }
  split; [exact E|].
  rewrite E, length_map. apply filter_length_le.
Qed.

End Engine.

(** ** [strip_ansi] only removes characters *)








(** ** Closed instances *)

(** C5, at a context that two registered names are prefixes of: [prefix]
    receives both names, and the completed line starts with both. *)
Theorem getMatchObject_appends_both_names :
  let cmds := [command "foo" [] CUndefined;
               command "foobar" [] (CArray ["xylophone"])] in
  option_map i_prefix
    (getMatchObject cmds (typed "foobar x" None) (getCommandNames cmds))
  = Some "foofoobar"
  /\ option_map i_context
       (getMatchObject cmds (typed "foobar x" None) (getCommandNames cmds))
     = Some (Some " x")
  /\ option_map log
       (match exec strip_ansi cmds 8 "foobar x" idle with
        | Ok _ w => Some w
        | Throw _ _ => None
        end)
     = Some [Callback VUndefined (VStr "foofoobar xylophone ")].
Proof.
  cbv zeta. repeat split.
Qed.

(** C9, in a registry where a command has the alias [undefined]: a context
    that matches no name goes to that command and not to the catch-all,
    and the context is lost. *)
Theorem getMatchObject_alias_undefined :
  let cmds := [command "help" [] CUndefined; catch_all;
               command "foo" ["undefined"] CUndefined] in
  getMatch strip_ansi "xyz" (getCommandNames cmds) = None
  /\ (forall cmd, In cmd (getCommandNames cmds) -> hit "xyz" cmd = false)
  /\ find _catch cmds = Some catch_all
  /\ option_map i_match
       (getMatchObject cmds (typed "xyz" None) (getCommandNames cmds))
     = Some (Some (command "foo" ["undefined"] CUndefined))
  /\ option_map i_context
       (getMatchObject cmds (typed "xyz" None) (getCommandNames cmds))
     = Some None.
Proof.
  cbv zeta. repeat split.
  intros cmd H. vm_compute in H.
  repeat (destruct H as [<-|H]; [reflexivity|]). contradiction.
Qed.

Lemma getSuffix_no_space_abc : getSuffix "abc" = "bc".
Proof. exact (getSuffix_no_space "abc" eq_refl). Defined.

Lemma assembleInput_parseInput_mid_word :
  assembleInput strip_ansi (parseInput "git push origin" 6) = "git puorigin"
  /\ assembleInput strip_ansi (parseInput "git push origin" 6)
     <> strip_ansi "git push origin".
Proof. split; [reflexivity | vm_compute; discriminate]. Qed.



Lemma getMatchData_option_flags_force :
  getMatchData strip_ansi
    (typed "-" (Some {| _name := "cmd"; _aliases := []; _catch := false;
                        options := [force];
                        _autocomplete := CArray ["never"; "read"] |}))
    (on_data strip_ansi) idle
  = on_data strip_ansi (VArr ["--force"]) idle
  /\ List.length (map preferred [force]) = 1.
Proof.
  exact (getMatchData_option_flags strip_ansi
           (typed "-" (Some {| _name := "cmd"; _aliases := [];
                               _catch := false; options := [force];
                               _autocomplete := CArray ["never"; "read"] |}))
           _ (on_data strip_ansi) idle eq_refl eq_refl eq_refl).
Defined.

(** A provider whose promise is rejected with a list of candidates. *)
Lemma exec_calls_back_once_rejected_list :
  (exists res w',
      exec strip_ansi
        [command "git" [] (CFunction (rejecting (VArr ["push"; "pull"])))]
        5 "git p" idle = Ok tt w'
      /\ log w' = (log idle ++ [Callback VUndefined res])%list
      /\ is_result res = true)
  /\ (forall context conf w1,
         conf = CUndefined \/ (exists d, conf = CObject d) ->
         i_context (input w1) <> None ->
         exists w',
           handleDataFormat context conf (on_data strip_ansi) w1 = Ok tt w'
           /\ log w' = (log w1 ++ [Callback VUndefined VUndefined])%list).
Proof.
  apply (exec_calls_back_once strip_ansi
           [command "git" [] (CFunction (rejecting (VArr ["push"; "pull"])))]
           5 "git p" idle).
  intros c [<-|[]]. split.
  - intros str. exists (VArr ["push"; "pull"]). split; reflexivity.
  - intros o [].
Defined.

(** A provider whose promise is rejected with an [Error]: the completion
    callback is never called and a [TypeError] is left unhandled.  A
    provider that returns a string: the [TypeError] leaves [exec]. *)
Lemma exec_fails_on_error_value :
  exec strip_ansi
    [command "git" [] (CFunction (rejecting (VError "boom")))]
    5 "git p" idle
  = Ok tt {| _tabCtr := 0;
             input := {| i_raw := "git p"; i_prefix := "git ";
                         i_suffix := ""; i_context := Some "p";
                         i_match :=
                           Some (command "git" []
                                   (CFunction (rejecting (VError "boom"))));
                         i_option := None |};
             log := [UnhandledRejection TypeError] |}
  /\ match exec strip_ansi
             [command "git" [] (CFunction (returning (VStr "push")))]
             5 "git p" idle with
     | Throw e w' => e = TypeError /\ log w' = []
     | Ok _ _ => False
     end.
Proof.
  split; [reflexivity|]. vm_compute. split; reflexivity.
Qed.


Lemma handleDataFormat_function_returning :
  handleDataFormat (Some "p") (CFunction (returning (VArr ["push"])))
    deliver idle
  = deliver (VArr ["push"]) idle.
Proof.
  exact (handleDataFormat_function (Some "p") (returning (VArr ["push"]))
           [] (VArr ["push"]) deliver idle eq_refl).
Defined.

(** A function that declares a delivery callback and never calls it
    delivers nothing; one that calls it and returns a promise delivers
    twice, the second time what the promise is fulfilled with. *)
Lemma handleDataFormat_not_one_delivery :
  handleDataFormat (Some "p") (CFunction silent) deliver idle = Ok tt idle
  /\ log (world_of (handleDataFormat (Some "p") (CFunction twice) deliver idle))
     = [Callback VUndefined (VArr ["a"]); Callback VUndefined (VArr ["b"])].
Proof. split; reflexivity. Qed.

(** ** Sample runs *)

(** Two presses on an ambiguous word: nothing at first, then the list, in
    the order [autocomplete.match] sorted it into. *)
Example two_presses :
  let cmds := [command "push" [] CUndefined; command "pull" [] CUndefined] in
  log (world_of ((exec strip_ansi cmds 2 "pu" ;; exec strip_ansi cmds 2 "pu")
                   idle))
  = [Callback VUndefined VUndefined;
     Callback VUndefined (VArr ["pull"; "push"])].
Proof. reflexivity. Qed.

(** A dash after a command completes to the long form of its only option. *)
Example option_flag_completed :
  log (world_of
         (exec strip_ansi
            [{| _name := "cmd"; _aliases := []; _catch := false;
                options := [force]; _autocomplete := CArray ["x"] |}]
            5 "cmd -" idle))
  = [Callback VUndefined (VStr "cmd --force ")].
Proof. reflexivity. Qed.

(** The second delivery of a provider that delivers twice meets the context
    that the first one completed. *)
Example second_delivery_sees_first :
  log (world_of
         (exec strip_ansi [command "git" [] (CFunction twice)] 4 "git " idle))
  = [Callback VUndefined (VStr "git a "); Callback VUndefined VUndefined].
Proof. reflexivity. Qed.

(** ** Closed instances of the further properties *)

Lemma match_no_candidate_x :
  match_ strip_ansi "x" ["push"; "pull"] = None.
Proof.
  apply (match_no_candidate strip_ansi "x" ["push"; "pull"]).
  intros a [<-|[<-|[]]]; reflexivity.
Defined.

Lemma match_single_candidate_pus :
  match_ strip_ansi "pus" ["pull"; "push"] = Some "push ".
Proof.
  exact (match_single_candidate strip_ansi "pus" ["pull"; "push"] "push"
           eq_refl).
Defined.


Lemma match_order_independent_swap :
  match_ strip_ansi "p" ["push"; "pull"] = match_ strip_ansi "p" ["pull"; "push"]
  /\ getMatch strip_ansi "p" ["push"; "pull"]
     = getMatch strip_ansi "p" ["pull"; "push"].
Proof.
  apply (match_order_independent strip_ansi "p" ["push"; "pull"]
           ["pull"; "push"]).
  apply perm_swap.
Defined.

Lemma filterData_blank_spaces :
  filterData strip_ansi (Some "  ") ["push"; "pull"] = ["push"; "pull"].
Proof.
  exact (filterData_blank strip_ansi (Some "  ") ["push"; "pull"] eq_refl).
Defined.

Lemma filterData_sound_push :
  In "push" ["push"; "pull"]
  /\ prefix_of (trim (or_empty (Some "pus"))) (strip_ansi "push")
  /\ matching strip_ansi (trim (or_empty (Some "pus"))) "push" = true.
Proof.
  apply (filterData_sound strip_ansi (Some "pus") ["push"; "pull"] "push").
  simpl. now left.
Defined.

Lemma parseInput_pipe_foo_bar :
  parseInput ("foo " ++ "|" ++ " bar") (length ("foo " ++ "|" ++ " bar"))
  = {| i_raw := "foo " ++ "|" ++ " bar"; i_prefix := "foo " ++ "|";
       i_suffix := ""; i_context := Some " bar"; i_match := None;
       i_option := None |}.
Proof. exact (parseInput_pipe "foo " " bar" eq_refl). Defined.

Lemma getSuffix_drops_word_sh :
  getSuffix ("sh" ++ String " " "origin") = "origin".
Proof.
  apply (getSuffix_drops_word "sh" " " "origin"); try reflexivity.
  left. discriminate.
Defined.

Lemma handleTabCounts_counter_zero :
  (0 <= snd (handleTabCounts (VArr ["push"; "pull"]) 0))%Z
  /\ (snd (handleTabCounts (VArr ["push"; "pull"]) 0) = 0%Z <->
      forall l', VArr ["push"; "pull"] <> VArr l')
  /\ (["push"; "pull"] <> [] ->
      (fst (handleTabCounts (VArr ["push"; "pull"]) 0) = VUndefined <->
       0%Z = 0%Z)).
Proof.
  apply (handleTabCounts_counter 0 (VArr ["push"; "pull"]) ["push"; "pull"]).
  lia.
Defined.

Lemma getMatchObject_unresolved_xyz :
  getMatchObject [command "help" [] CUndefined] (typed "xyz" None)
    (getCommandNames [command "help" [] CUndefined])
  = Some (typed "xyz" None).
Proof.
  apply (getMatchObject_unresolved [command "help" [] CUndefined]
           (typed "xyz" None) _ "xyz" eq_refl).
  - intros cmd [<-|[]]. reflexivity.
  - intros c [<-|[]] [].
  - reflexivity.
Defined.

Lemma getMatchObject_longest_name_foobar :
  let cmds := [command "foo" [] CUndefined; command "foobar" [] CUndefined] in
  exists best c,
    In best (getCommandNames cmds)
    /\ hit (trim_start " foobar x") best = true
    /\ (forall n, In n (getCommandNames cmds) ->
                  hit (trim_start " foobar x") n = true ->
                  length n <= length best)
    /\ In c cmds
    /\ (_name c = best \/ In best (_aliases c))
    /\ getMatchObject cmds (typed " foobar x" None) (getCommandNames cmds)
       = Some {| i_raw := i_raw (typed " foobar x" None);
                 i_prefix :=
                   i_prefix (typed " foobar x" None)
                   ++ spaces (length " foobar x"
                              - length (trim_start " foobar x"))
                   ++ join ""
                        (filter (hit (trim_start " foobar x"))
                           (getCommandNames cmds));
                 i_suffix := i_suffix (typed " foobar x" None);
                 i_context :=
                   Some (slice_from (length best) (trim_start " foobar x"));
                 i_match := Some c;
                 i_option := i_option (typed " foobar x" None) |}.
Proof.
  cbv zeta.
  apply (getMatchObject_longest_name
           [command "foo" [] CUndefined; command "foobar" [] CUndefined]
           (typed " foobar x" None) " foobar x" "foo" eq_refl).
  - intros n [<-|[<-|[]]]; reflexivity.
  - now left.
  - reflexivity.
Defined.

Lemma parseMatchSection_text_flag :
  exists last_,
    i_context (parseMatchSection strip_ansi (typed " -f va" None))
    = Some last_
    /\ no_char " " last_ = true
    /\ i_prefix (parseMatchSection strip_ansi (typed " -f va" None)) ++ last_
       = i_prefix (typed " -f va" None)
         ++ (if no_char " " " -f va" then " " ++ " -f va" else " -f va")
    /\ i_match (parseMatchSection strip_ansi (typed " -f va" None))
       = i_match (typed " -f va" None).
Proof.
  exact (parseMatchSection_text strip_ansi (typed " -f va" None) " -f va"
           eq_refl).
Defined.

Lemma handleDataFormat_not_a_list_rejected :
  handleDataFormat (Some "p") (CFunction (rejecting (VError "boom")))
    (on_data strip_ansi) idle
  = emit (UnhandledRejection TypeError) idle.
Proof.
  apply (handleDataFormat_not_a_list strip_ansi (Some "p")
           (rejecting (VError "boom")) []
           (RetThenable (Rejected (VError "boom"))) idle);
    [reflexivity | apply le_n | discriminate | reflexivity].
Defined.

Lemma exec_completes_unique_name_pus :
  exists w',
    exec strip_ansi [command "push" [] CUndefined; command "pull" [] CUndefined]
      (length "pus") "pus" idle = Ok tt w'
    /\ _tabCtr w' = 0%Z
    /\ log w'
       = (log idle
          ++ [Callback VUndefined (VStr (strip_ansi ("push" ++ " ")))])%list.
Proof.
  exact (exec_completes_unique_name strip_ansi
           [command "push" [] CUndefined; command "pull" [] CUndefined]
           "pus" "push" idle eq_refl eq_refl eq_refl).
Defined.

